(** * SteamDesktopFileGenerator: a shallow embedding of the script

    The script scans [<lib>/steamapps/common], and for every game directory
    holding a [steam_appid.txt] it resolves an icon hash with [steamcmd],
    downloads the [.ico], unpacks it with [icotool], copies the best images
    into the hicolor icon theme and writes a [.desktop] launcher.

    The embedding follows the newer revision of the script (the one that has
    [steamIconRegex] and the selection loop in [installIcon]).  Every
    asynchronous function becomes a state transformer over a [world]
    (filesystem, console, the [lastIndex] of the global regex): what the
    function does when nothing else runs in between.  The entries that
    [createAllDesktops] starts without awaiting them run interleaved: each
    function is also given as a task, cut at its awaits, and the started
    tasks resume in the order in which their operations complete.  The
    external programs, the network and that order are oracles gathered in
    an [env].

    What the model takes for granted:
    - paths are POSIX paths and strings are sequences of bytes;
    - [steamcmd] and [icotool] can be started (they are on the PATH), and
      the command line of [icotool] reaches the tool as the two paths it is
      built from. *)

From Stdlib Require Import Ascii String.
From stdpp Require Import gmap strings list fin_maps pretty.

Local Open Scope string_scope.

(** ** Strings as JavaScript uses them here *)

Module Str.

Definition chars (s : string) : list ascii := list_ascii_of_string s.
Definition of_chars (l : list ascii) : string := string_of_list_ascii l.

(** [s.split(sep)] for a one-character separator: never the empty list. *)
Fixpoint split_on (sep : ascii) (s : string) : list string :=
  match s with
  | EmptyString => [EmptyString]
  | String c s' =>
      if Ascii.eqb c sep then EmptyString :: split_on sep s'
      else match split_on sep s' with
           | seg :: segs => String c seg :: segs
           | [] => [String c EmptyString]
           end
  end.

(** [s.split(sep)[0]] *)
Definition first_field (sep : ascii) (s : string) : string :=
  hd EmptyString (split_on sep s).

Definition ends_with_slash (s : string) : bool :=
  match last (chars s) with
  | Some c => Ascii.eqb c "/"
  | None => false
  end.

Definition starts_with_slash (s : string) : bool :=
  match s with
  | String c _ => Ascii.eqb c "/"
  | EmptyString => false
  end.

Definition is_empty (s : string) : bool :=
  match s with EmptyString => true | _ => false end.

End Str.

(** ** [path.normalize] and [path.join] (POSIX flavour of Node's [path]) *)

Module Path.

(** One step of Node's [normalizeString], segment by segment; [acc] is the
    result so far, last segment first. *)
Definition push_segment (allowAboveRoot : bool) (acc : list string)
    (seg : string) : list string :=
  if Str.is_empty seg then acc
  else if String.eqb seg "." then acc
  else if String.eqb seg ".." then
    match acc with
    | top :: below =>
        if String.eqb top ".." then
          (if allowAboveRoot then ".." :: acc else acc)
        else below
    | [] => if allowAboveRoot then [".."] else []
    end
  else seg :: acc.

Definition normalizeString (path : string) (allowAboveRoot : bool) : string :=
  String.concat "/"
    (rev (fold_left (push_segment allowAboveRoot) (Str.split_on "/" path) [])).

Definition normalize (path : string) : string :=
  if Str.is_empty path then "."
  else
    let isAbsolute := Str.starts_with_slash path in
    let trailingSeparator := Str.ends_with_slash path in
    let p := normalizeString path (negb isAbsolute) in
    if Str.is_empty p then
      (if isAbsolute then "/" else if trailingSeparator then "./" else ".")
    else
      let p' := if trailingSeparator then p ++ "/" else p in
      if isAbsolute then "/" ++ p' else p'.

Definition join (args : list string) : string :=
  match filter (fun a => negb (Str.is_empty a) = true) args with
  | [] => "."
  | parts => normalize (String.concat "/" parts)
  end.

(** The name the kernel resolves: a trailing separator is not part of it. *)
Definition canon (p : string) : string :=
  if Str.ends_with_slash p && (1 <? String.length p)%nat
  then Str.of_chars (removelast (Str.chars p))
  else p.

(** Directory part and last component of a canonical path. *)
Definition dirname (p : string) : string :=
  match rev (Str.split_on "/" p) with
  | _ :: (_ :: _) as up =>
      match String.concat "/" (rev up) with
      | EmptyString => "/"
      | d => d
      end
  | _ => "."
  end.

Definition basename (p : string) : string :=
  match rev (Str.split_on "/" p) with
  | b :: _ => b
  | [] => EmptyString
  end.

End Path.

(** ** The two regular expressions

    Both patterns are sequences of literals, greedy repetitions of a
    character class (possibly captured) and, for the [m] flag, line anchors.
    The matcher below is the backtracking matcher of ECMAScript restricted to
    that fragment: a repetition first takes as many characters as it can and
    gives them back one by one while the rest of the pattern fails.  Strings
    are sequences of bytes; only ASCII white space is recognised by [\s]. *)

Module Regex.

Inductive atom :=
| Lit (c : ascii)
| Rep (p : ascii → bool) (min : nat)
| CapRep (p : ascii → bool) (min : nat)
| Bol
| Eol.

Definition lits (s : string) : list atom := map Lit (Str.chars s).

Definition is_digit (c : ascii) : bool :=
  let n := nat_of_ascii c in (48 <=? n)%nat && (n <=? 57)%nat.

Definition is_space (c : ascii) : bool :=
  let n := nat_of_ascii c in
  ((9 <=? n)%nat && (n <=? 13)%nat) || (n =? 32)%nat.

Definition is_line_terminator (c : ascii) : bool :=
  let n := nat_of_ascii c in (n =? 10)%nat || (n =? 13)%nat.

(** The double quote, character 34. *)
Definition dquote : ascii := ascii_of_nat 34.

Definition not_quote (c : ascii) : bool := negb (Ascii.eqb c dquote).

(** A match in progress: the character before the cursor, the rest of the
    input, the cursor's index and the captures made so far. *)
Definition result : Type := list string * nat.

Fixpoint rep (p : ascii → bool)
    (k : option ascii → list ascii → nat → list ascii → option result)
    (prev : option ascii) (s : list ascii) (pos : nat)
    (taken : list ascii) : option result :=
  match s with
  | c :: s' =>
      if p c then
        match rep p k (Some c) s' (S pos) (c :: taken) with
        | Some r => Some r
        | None => k prev s pos taken
        end
      else k prev s pos taken
  | [] => k prev s pos taken
  end.

Fixpoint match_atoms (r : list atom) (prev : option ascii) (s : list ascii)
    (pos : nat) (caps : list string) : option result :=
  match r with
  | [] => Some (caps, pos)
  | Lit c :: r' =>
      match s with
      | c' :: s' =>
          if Ascii.eqb c c' then match_atoms r' (Some c') s' (S pos) caps
          else None
      | [] => None
      end
  | Rep p min :: r' =>
      rep p (fun prev' s' pos' taken =>
               if (min <=? length taken)%nat
               then match_atoms r' prev' s' pos' caps else None)
          prev s pos []
  | CapRep p min :: r' =>
      rep p (fun prev' s' pos' taken =>
               if (min <=? length taken)%nat
               then match_atoms r' prev' s' pos'
                      (caps ++ [Str.of_chars (rev taken)])
               else None)
          prev s pos []
  | Bol :: r' =>
      match prev with
      | None => match_atoms r' prev s pos caps
      | Some c =>
          if is_line_terminator c then match_atoms r' prev s pos caps
          else None
      end
  | Eol :: r' =>
      match s with
      | [] => match_atoms r' prev s pos caps
      | c :: _ =>
          if is_line_terminator c then match_atoms r' prev s pos caps
          else None
      end
  end.

(** Leftmost match at or after the cursor. *)
Fixpoint search (r : list atom) (prev : option ascii) (s : list ascii)
    (pos : nat) : option result :=
  match match_atoms r prev s pos [] with
  | Some m => Some m
  | None =>
      match s with
      | c :: s' => search r (Some c) s' (S pos)
      | [] => None
      end
  end.

(** [re.exec(input)] for a pattern without the [g] flag: the captures. *)
Definition exec (r : list atom) (input : string) : option (list string) :=
  fst <$> search r None (Str.chars input) 0.

(** [re.exec(input)] for a pattern with the [g] flag: the search starts at
    [lastIndex], which is left at the end of the match, or at 0 when there
    is none. *)
Definition exec_g (r : list atom) (lastIndex : nat) (input : string)
    : option (list string) * nat :=
  let l := Str.chars input in
  if (length l <? lastIndex)%nat then (None, 0%nat)
  else
    match search r (last (take lastIndex l)) (drop lastIndex l) lastIndex with
    | Some (caps, e) => (Some caps, e)
    | None => (None, 0%nat)
    end.

End Regex.

(** The pattern of [steamcmdRegex], flags [gm]: start of a line, white
    space, the quoted key clienticon, at least one white space, a quoted
    non-empty value without quotes (the capture), white space, end of a
    line. *)
Definition steamcmdRegex : list Regex.atom :=
  [Regex.Bol; Regex.Rep Regex.is_space 0; Regex.Lit Regex.dquote]
  ++ Regex.lits "clienticon"
  ++ [Regex.Lit Regex.dquote;
      Regex.Rep Regex.is_space 1; Regex.Lit Regex.dquote;
      Regex.CapRep Regex.not_quote 1; Regex.Lit Regex.dquote;
      Regex.Rep Regex.is_space 0; Regex.Eol].

Definition steamIconBase : string :=
  "https://shared.fastly.steamstatic.com/community_assets/images/apps/".

(** The pattern of [steamIconRegex], no flags: three captured runs of
    digits, each possibly empty, separated by the letter x. *)
Definition steamIconRegex : list Regex.atom :=
  [Regex.CapRep Regex.is_digit 0; Regex.Lit "x";
   Regex.CapRep Regex.is_digit 0; Regex.Lit "x";
   Regex.CapRep Regex.is_digit 0].


(** ** JavaScript numbers, as far as [Math.max] and [!=] need them

    The bit depths are captures of a run of digits, so [ToNumber] only ever
    sees strings of digits (the empty one is 0).  Its value is the IEEE
    double nearest to the decimal number, ties to even, and [Infinity] from
    2^1024 on; the double of a natural number is kept as the natural number
    it equals.  Any other string is [NaN] here. *)

Inductive jsnum :=
| NegInfinity
| Num (n : N)
| Infinity
| NaN.

Definition digit_value (c : ascii) : N := N.of_nat (nat_of_ascii c - 48).

(** The double nearest to [n]: 53 significant bits, the bits below them
    rounded to nearest, ties to even. *)
Definition to_double (n : N) : jsnum :=
  let e := (N.size n - 53)%N in
  let q := N.shiftr n e in
  let r := N.land n (N.ones e) in
  let half := N.shiftl 1 (e - 1) in
  let up := (0 <? e)%N && ((half <? r)%N || ((r =? half)%N && N.odd q)) in
  let m := N.shiftl (if up then q + 1 else q)%N e in
  if (N.shiftl 1 1024 <=? m)%N then Infinity else Num m.

Definition ToNumber (s : string) : jsnum :=
  if forallb Regex.is_digit (Str.chars s)
  then to_double
         (fold_left (fun acc c => (10 * acc + digit_value c)%N) (Str.chars s) 0%N)
  else NaN.

Definition max2 (a b : jsnum) : jsnum :=
  match a, b with
  | NaN, _ | _, NaN => NaN
  | NegInfinity, x | x, NegInfinity => x
  | Infinity, _ | _, Infinity => Infinity
  | Num x, Num y => Num (N.max x y)
  end.

(** [Math.max(...l)]: minus infinity for no argument at all. *)
Definition Math_max (l : list jsnum) : jsnum := fold_left max2 l NegInfinity.

(** [a == b] on numbers: [NaN] equals nothing. *)
Definition num_eqb (a b : jsnum) : bool :=
  match a, b with
  | NegInfinity, NegInfinity => true
  | Num x, Num y => (x =? y)%N
  | Infinity, Infinity => true
  | _, _ => false
  end.

(** ** The world the script runs in *)

Inductive log_line :=
| Out (s : string)     (* console.log *)
| Err (s : string).    (* console.error *)

Inductive js_error :=
| FsError (code : string) (path : string)
| ExecError (stderr : string)
| TypeError (msg : string)
| FetchError (url : string).

Definition show_error (e : js_error) : string :=
  match e with
  | FsError code path => "Error: " ++ code ++ ": " ++ path
  | ExecError _ => "Error: Command failed"
  | TypeError msg => "TypeError: " ++ msg
  | FetchError _ => "TypeError: fetch failed"
  end.

(** What the script did to the filesystem, most recent first. *)
Inductive fs_event :=
| EvMkdir (p : string)
| EvDownload (dest : string)
| EvExtract (dest : string) (names : list string)
| EvCopy (src dst : string)
| EvWrite (p : string) (content : string).

Record world := World {
  files : gmap string string;     (* regular files and their contents *)
  dirs : gset string;             (* directories *)
  readonly : gset string;         (* directories nothing can be written in *)
  console : list log_line;        (* most recent first *)
  lastIndex : nat;                (* of the shared steamcmdRegex *)
  events : list fs_event;
}.

Definition with_files (f : gmap string string) (w : world) : world :=
  World f (dirs w) (readonly w) (console w) (lastIndex w) (events w).
Definition with_dirs (d : gset string) (w : world) : world :=
  World (files w) d (readonly w) (console w) (lastIndex w) (events w).
Definition with_lastIndex (i : nat) (w : world) : world :=
  World (files w) (dirs w) (readonly w) (console w) i (events w).
Definition emit (e : fs_event) (w : world) : world :=
  World (files w) (dirs w) (readonly w) (console w) (lastIndex w) (e :: events w).
Definition print (l : log_line) (w : world) : world :=
  World (files w) (dirs w) (readonly w) (l :: console w) (lastIndex w) (events w).

(** What a spawned [steamcmd] sends to its listeners, in order. *)
Inductive proc_event :=
| Data (chunk : string)
| Close (code : option nat).     (* [null] when killed by a signal *)

(** [fetch(url)]: a response, an error, or no answer at all (there is no
    timeout). *)
Inductive fetch_result :=
| FetchOk (body : string)
| FetchNotOk (text : string)
| FetchThrows
| FetchHangs.

(** [icotool -x]: a non-zero exit with its stderr, or the files it wrote
    with exit status 0, or a process that never ends. *)
Inductive icotool_result :=
| IcoFail (stderr : string)
| IcoOk (out : list (string * string))
| IcoHangs.

(** A positional argument as minimist hands it over: a string, or a number
    when the argument looks like one. *)
Inductive positional :=
| Text (s : string)
| Numeric.

Record env := Env {
  argv : list positional;                      (* [argv._] *)
  HOME : option string;
  os_tmpdir : string;
  mkdtemp_suffix : string;
  steamcmd : string → list proc_event;         (* by application id *)
  fetch : string → fetch_result;               (* by URL *)
  icotool : option string → icotool_result;    (* by the source's contents *)
  completions : list nat;      (* whose pending operation completes next *)
}.

(** ** Outcomes of an asynchronous function *)

Inductive outcome (A : Type) :=
| Returns (a : A)
| Throws (e : js_error)
| Pending                        (* awaits a promise that never settles *)
| Exits (code : nat).            (* process.exit *)
Arguments Returns {A} a.
Arguments Throws {A} e.
Arguments Pending {A}.
Arguments Exits {A} code.

Definition M (A : Type) : Type := world → outcome A * world.

Definition ret {A} (a : A) : M A := fun w => (Returns a, w).
Definition throw {A} (e : js_error) : M A := fun w => (Throws e, w).
Definition bind {A B} (m : M A) (k : A → M B) : M B :=
  fun w =>
    match m w with
    | (Returns a, w') => k a w'
    | (Throws e, w') => (Throws e, w')
    | (Pending, w') => (Pending, w')
    | (Exits c, w') => (Exits c, w')
    end.
Definition try_catch {A} (m : M A) (h : js_error → M A) : M A :=
  fun w =>
    match m w with
    | (Throws e, w') => h e w'
    | r => r
    end.
(** Awaiting a promise that never settles. *)
Definition never {A} : M A := fun w => (Pending, w).
Definition console_log (s : string) : M unit := fun w => (Returns tt, print (Out s) w).
Definition console_error (s : string) : M unit := fun w => (Returns tt, print (Err s) w).

Notation "'let!' x ':=' m 'in' k" := (bind m (fun x => k))
  (at level 10, x name, m at level 100, k at level 200).
Notation "m ;; k" := (bind m (fun _ => k))
  (at level 100, k at level 200, right associativity).

(** ** Filesystem calls *)

Module Fs.

Definition is_dir (p : string) (w : world) : bool :=
  bool_decide (Path.canon p ∈ dirs w).

Definition is_file (p : string) (w : world) : bool :=
  negb (Str.ends_with_slash p)
  && bool_decide (is_Some (files w !! Path.canon p)).

Definition existsSync (p : string) (w : world) : bool :=
  is_dir p w || is_file p w.

(** Can an entry named [c] be created or written? *)
Definition check_parent (c : string) (w : world) : option js_error :=
  if negb (bool_decide (Path.dirname c ∈ dirs w)) then Some (FsError "ENOENT" c)
  else if bool_decide (Path.dirname c ∈ readonly w) then Some (FsError "EACCES" c)
  else None.

(** Can the regular file [p] be created or overwritten? *)
Definition check_target (p : string) (w : world) : option js_error :=
  if is_dir p w then Some (FsError "EISDIR" p)
  else if Str.ends_with_slash p then Some (FsError "ENOTDIR" p)
  else check_parent p w.

Definition mkdir (p : string) : M unit := fun w =>
  let c := Path.canon p in
  if existsSync p w || existsSync c w then (Throws (FsError "EEXIST" c), w)
  else match check_parent c w with
       | Some e => (Throws e, w)
       | None => (Returns tt, emit (EvMkdir c) (with_dirs ({[c]} ∪ dirs w) w))
       end.

(** [mkdtemp(prefix)]: the suffix is the environment's choice. *)
Definition mkdtemp (prefix suffix : string) : M string := fun w =>
  let c := prefix ++ suffix in
  if existsSync c w then (Throws (FsError "EEXIST" c), w)
  else match check_parent c w with
       | Some e => (Throws e, w)
       | None => (Returns c, emit (EvMkdir c) (with_dirs ({[c]} ∪ dirs w) w))
       end.

Definition readdir (p : string) : M (list string) := fun w =>
  let c := Path.canon p in
  if is_dir c w then
    (Returns (map Path.basename
                (filter (fun k => Path.dirname k = c ∧ k ≠ c)
                        (elements (dom (files w) ∪ dirs w)))), w)
  else (Throws (FsError (if is_file c w then "ENOTDIR" else "ENOENT") c), w).

(** [(await stat(p)).isDirectory()] *)
Definition stat_isDirectory (p : string) : M bool := fun w =>
  if is_dir p w then (Returns true, w)
  else if is_file p w then (Returns false, w)
  else (Throws (FsError "ENOENT" p), w).

Definition readFile (p : string) : M string := fun w =>
  if is_dir p w then (Throws (FsError "EISDIR" p), w)
  else match files w !! Path.canon p with
       | Some content => (Returns content, w)
       | None => (Throws (FsError "ENOENT" p), w)
       end.

Definition writeFile (p content : string) : M unit := fun w =>
  match check_target p w with
  | Some e => (Throws e, w)
  | None => (Returns tt, emit (EvWrite p content) (with_files (<[p := content]> (files w)) w))
  end.

Definition copyFile (src dst : string) : M unit := fun w =>
  match files w !! src with
  | None => (Throws (FsError "ENOENT" src), w)
  | Some content =>
      match check_target dst w with
      | Some e => (Throws e, w)
      | None => (Returns tt, emit (EvCopy src dst) (with_files (<[dst := content]> (files w)) w))
      end
  end.

(** [createWriteStream(dest, {flags: 'wx'})] fed with the response body and
    awaited with [finished]: refuses an existing destination. *)
Definition writeStream_wx (dest body : string) : M unit := fun w =>
  if existsSync dest w then (Throws (FsError "EEXIST" dest), w)
  else match check_target dest w with
       | Some e => (Throws e, w)
       | None => (Returns tt, emit (EvDownload dest) (with_files (<[dest := body]> (files w)) w))
       end.

(** The files an external tool leaves in directory [dest]. *)
Definition drop_files (dest : string) (out : list (string * string))
    (f : gmap string string) : gmap string string :=
  foldr (fun nc acc => <[Path.canon dest ++ "/" ++ nc.1 := nc.2]> acc) f out.

End Fs.

(** ** Tasks: asynchronous functions cut at their awaits

    [Run] is code that runs on the spot and [Await] the rest of a function
    from the completion of the operation it awaits; both are given by the
    task that follows and by what the step does to the world, each as a
    function of the world the step starts in.  [Stuck] is the wait for
    something that never comes, which keeps the process alive; [Done Pending]
    is a promise that nothing will settle, with nothing left to wait for;
    [Spawn] starts a child whose events arrive on their own. *)

Inductive task (A : Type) : Type :=
| Done (o : outcome A)
| Run (next : world → task A) (effect : world → world)
| Await (next : world → task A) (effect : world → world)
| Stuck
| Spawn (child : task unit) (k : task A).
Arguments Done {A} o.
Arguments Run {A} next effect.
Arguments Await {A} next effect.
Arguments Stuck {A}.
Arguments Spawn {A} child k.

Fixpoint bind_t {A B : Type} (t : task A) (k : A → task B) : task B :=
  match t with
  | Done (Returns a) => k a
  | Done (Throws e) => Done (Throws e)
  | Done Pending => Done Pending
  | Done (Exits c) => Done (Exits c)
  | Run n e => Run (fun w => bind_t (n w) k) e
  | Await n e => Await (fun w => bind_t (n w) k) e
  | Stuck => Stuck
  | Spawn c t' => Spawn c (bind_t t' k)
  end.

Fixpoint try_t {A : Type} (t : task A) (h : js_error → task A) : task A :=
  match t with
  | Done (Throws e) => h e
  | Done o => Done o
  | Run n e => Run (fun w => try_t (n w) h) e
  | Await n e => Await (fun w => try_t (n w) h) e
  | Stuck => Stuck
  | Spawn c t' => Spawn c (try_t t' h)
  end.

(** An operation that is awaited, and code that is not. *)
Definition await {A : Type} (m : M A) : task A :=
  Await (fun w => Done (m w).1) (fun w => (m w).2).
Definition sync {A : Type} (m : M A) : task A :=
  Run (fun w => Done (m w).1) (fun w => (m w).2).

Notation "'let*' x ':=' t 'in' k" := (bind_t t (fun x => k))
  (at level 10, x name, t at level 100, k at level 200).
Notation "t ;;* k" := (bind_t t (fun _ => k))
  (at level 100, k at level 200, right associativity).


(** The tasks started so far, finished ones included. *)
Definition pool : Type := list (task unit).

(** To the next await: the children started on the way, what is left of
    the task, and the world. *)
Fixpoint advance {A : Type} (t : task A) (w : world)
    : list (task unit) * task A * world :=
  match t with
  | Run n e => advance (n w) (e w)
  | Spawn c k =>
      let '(cs1, c', w1) := advance c w in
      let '(cs2, k', w2) := advance k w1 in
      ((cs1 ++ c' :: cs2)%list, k', w2)
  | _ => ([], t, w)
  end.

(** The operation awaited by task [i] completes: the task runs to its next
    await.  Nothing happens when task [i] awaits nothing. *)
Definition resume (i : nat) (p : pool) (w : world) : pool * world :=
  match p !! i with
  | Some (Await n e) =>
      let '(cs, t', w') := advance (n w) (e w) in
      ((take i p ++ cs ++ t' :: drop (S i) p)%list, w')
  | _ => (p, w)
  end.

Fixpoint run_pool (order : list nat) (p : pool) (w : world) : pool * world :=
  match order with
  | [] => (p, w)
  | i :: order' => let '(p', w') := resume i p w in run_pool order' p' w'
  end.

(** Nothing of the task is outstanding. *)
Definition finished (t : task unit) : bool :=
  match t with Done _ => true | _ => false end.

(** ** The script *)

Record config := Config {
  steamCommonPath : string;
  applicationPath : string;
  iconPath : string;
  tmpDir : string;
}.

(** An entry of the array [extractIco] returns; [None] stands for [null]. *)
Record IconCandidate := Candidate {
  path : string;
  width : string;
  height : string;
  bitdepth : string;
}.

Record Game := MkGame {
  name : string;
  id : string;
}.

(** The callback of [files.map] in [extractIco]. *)
Definition parse_size (dest v : string) : option IconCandidate :=
  match Regex.exec steamIconRegex v with
  | Some [w; h; b] => Some (Candidate (Path.join [dest; v]) w h b)
  | _ => None
  end.

(** The promise built in [getIconHash]: only the first settlement counts. *)
Inductive promise_state :=
| Unsettled
| Resolved (hash : string)
| Rejected (code : nat).

Definition settle (st new : promise_state) : promise_state :=
  match st with
  | Unsettled => new
  | _ => st
  end.

(** The two listeners of [getIconHash], run over the events of the child. *)
Fixpoint listen (evs : list proc_event) (st : promise_state) (li : nat)
    : promise_state * nat :=
  match evs with
  | [] => (st, li)
  | Data output :: evs' =>
      match Regex.exec_g steamcmdRegex li output with
      | (Some searched, li') =>
          listen evs' (settle st (Resolved (nth 0 searched EmptyString))) li'
      | (None, li') => listen evs' st li'
      end
  | Close code :: evs' =>
      match code with
      | Some (S n) => listen evs' (settle st (Rejected (S n))) li
      | _ => listen evs' st li
      end
  end.

Definition desktopFileContent (game : Game) (icon : string) : string :=
  "[Desktop Entry]" ++ "
" ++ "Name=" ++ name game ++ "
" ++ "Comment=Play this game on Steam" ++ "
" ++ "Exec=steam steam://rungameid/" ++ id game ++ "
" ++ "Icon=" ++ icon ++ "
" ++ "Terminal=false" ++ "
" ++ "Type=Application" ++ "
" ++ "Categories=Game;" ++ "
" ++ "
".

Section Script.

Variable E : env.
Variable C : config.

Definition getIconHash (app_id : string) : M (option string) := fun w =>
  let '(st, li) := listen (steamcmd E app_id) Unsettled (lastIndex w) in
  let w1 := with_lastIndex li w in
  match st with
  | Resolved hash => (Returns (Some hash), print (Out hash) w1)
  | Rejected _ =>
      (Returns None, print (Err "Could not use SteamCMD to get icon hash!") w1)
  | Unsettled => (Pending, w1)
  end.

Definition downloadIcon (app_id : string) : M (option string) :=
  let! iconHash := getIconHash app_id in
  match iconHash with
  | None | Some EmptyString => ret None
  | Some iconHash =>
      let url := steamIconBase ++ app_id ++ "/" ++ iconHash ++ ".ico" in
      console_log url ;;
      match fetch E url with
      | FetchThrows => throw (FetchError url)
      | FetchOk body =>
          let dest := Path.join [tmpDir C; iconHash] in
          Fs.writeStream_wx dest body ;;
          ret (Some dest)
      | FetchNotOk text =>
          console_error ("Could not fetch icon! " ++ text) ;;
          ret None
      | FetchHangs => never
      end
  end.

(** The shell command of [extractIco]; a [null] source is spelled null. *)
Definition exec_icotool (src : option string) (dest : string) : M unit := fun w =>
  match icotool E (files w !! default "null" src) with
  | IcoFail stderror =>
      (Throws (ExecError stderror),
       print (Err ("Could not extract icon sizes! " ++ stderror)) w)
  | IcoOk out =>
      (Returns tt,
       emit (EvExtract dest (map fst out))
            (with_files (Fs.drop_files dest out (files w)) w))
  | IcoHangs => (Pending, w)
  end.

Definition extractIco (src : option string) (dest : string)
    : M (list (option IconCandidate)) :=
  Fs.mkdir dest ;;
  exec_icotool src dest ;;
  (* the promise was resolved with null: [if (err) return []] is not taken *)
  let! files := Fs.readdir dest in
  ret (map (parse_size dest) files).

(** [sizes.map(v => v.bitdepth)]: reading a property of [null] throws. *)
Fixpoint bitdepths (sizes : list (option IconCandidate)) : option (list string) :=
  match sizes with
  | [] => Some []
  | Some v :: rest => cons (bitdepth v) <$> bitdepths rest
  | None :: _ => None
  end.

Definition null_deref : js_error :=
  TypeError "Cannot read properties of null".

Definition iconDir (v : IconCandidate) : string :=
  Path.join [iconPath C; width v ++ "x" ++ height v ++ "/"; "apps/"].

Definition destPath (app_id : string) (v : IconCandidate) : string :=
  Path.join [iconDir v; "steam_icon_" ++ app_id ++ ".png"].

(** The body of the [for] loop of [installIcon] for one candidate: the new
    value of [succeeded]. *)
Definition place (app_id : string) (highestDepth : jsnum) (v : IconCandidate)
    (succeeded : bool) : M bool := fun w =>
  if negb (String.eqb (height v) (width v)) then
    (Returns succeeded, print (Err ("Icon '" ++ path v ++ "' is not square!")) w)
  else if negb (num_eqb (ToNumber (bitdepth v)) highestDepth) then
    (Returns succeeded, w)
  else if negb (Fs.existsSync (iconDir v) w) then (Returns succeeded, w)
  else if Fs.existsSync (destPath app_id v) w then (Returns true, w)
  else
    try_catch (Fs.copyFile (path v) (destPath app_id v) ;; ret true)
              (fun _ => ret succeeded) w.

Fixpoint place_all (app_id : string) (highestDepth : jsnum)
    (sizes : list (option IconCandidate)) (succeeded : bool) : M bool :=
  match sizes with
  | [] => ret succeeded
  | None :: _ => throw null_deref
  | Some v :: rest =>
      let! succeeded' := place app_id highestDepth v succeeded in
      place_all app_id highestDepth rest succeeded'
  end.

(** [installIcon] from [let succeeded = false] on. *)
Definition install_sizes (app_id : string)
    (sizes : list (option IconCandidate)) : M bool :=
  match bitdepths sizes with
  | None => throw null_deref
  | Some depths =>
      let highestDepth := Math_max (map ToNumber depths) in
      place_all app_id highestDepth sizes false
  end.

Definition installIcon (app_id : string) : M bool :=
  let! ico := downloadIcon app_id in
  let! sizes := extractIco ico (Path.join [tmpDir C; app_id ++ "/"]) in
  install_sizes app_id sizes.

Definition log_caught (e : js_error) : M unit := console_error (show_error e).

Definition createDesktopFile (dir : string) : M unit :=
  let gamePath := Path.join [steamCommonPath C; dir] in
  try_catch
    (let! isDirectory := Fs.stat_isDirectory gamePath in
     if negb isDirectory then ret tt
     else
       let appidFilePath := Path.join [gamePath; "steam_appid.txt"] in
       try_catch
         (fun w =>
            if negb (Fs.existsSync appidFilePath w) then ret tt w
            else
              (let! fd := Fs.readFile appidFilePath in
               let game := MkGame dir (Str.first_field "010" fd) in
               let! installed := installIcon (id game) in
               let icon := if installed then "steam_icon_" ++ id game else "steam" in
               try_catch
                 (Fs.writeFile (Path.join [applicationPath C; name game ++ ".desktop"])
                               (desktopFileContent game icon) ;;
                  console_log ("Created .desktop file for '" ++ name game
                               ++ "' (" ++ id game ++ ")."))
                 log_caught) w)
         log_caught)
    log_caught.

(** *** The same functions as tasks *)

(** The listeners of a child whose promise is settled: the pattern is still
    run on every chunk.  [closed] tells whether the child has exited: a
    child that never does keeps the process waiting. *)
Fixpoint echo (closed : bool) (evs : list proc_event) : task unit :=
  match evs with
  | [] => if closed then Done (Returns tt) else Stuck
  | Data output :: evs' =>
      Await (fun _ => echo closed evs')
            (fun w => with_lastIndex
                        (Regex.exec_g steamcmdRegex (lastIndex w) output).2 w)
  | Close _ :: evs' => Await (fun _ => echo true evs') (fun w => w)
  end.

(** [getIconHash] while its promise is unsettled: one step for each event
    of the child, the handlers of [then] running with the event that
    settles the promise.  When the child has exited and the promise is
    still unsettled, nothing will settle it. *)
Fixpoint hear (closed : bool) (evs : list proc_event) : task (option string) :=
  match evs with
  | [] => if closed then Done Pending else Stuck
  | Data output :: evs' =>
      Await (fun w =>
               match (Regex.exec_g steamcmdRegex (lastIndex w) output).1 with
               | Some searched =>
                   let hash := nth 0 searched EmptyString in
                   Spawn (echo closed evs')
                         (sync (console_log hash) ;;* Done (Returns (Some hash)))
               | None => hear closed evs'
               end)
            (fun w => with_lastIndex
                        (Regex.exec_g steamcmdRegex (lastIndex w) output).2 w)
  | Close code :: evs' =>
      Await (fun _ =>
               match code with
               | Some (S n) =>
                   Spawn (echo true evs')
                         (sync (console_error
                                  "Could not use SteamCMD to get icon hash!") ;;*
                          Done (Returns None))
               | _ => hear true evs'
               end)
            (fun w => w)
  end.

Definition getIconHash_t (app_id : string) : task (option string) :=
  hear false (steamcmd E app_id).

Definition downloadIcon_t (app_id : string) : task (option string) :=
  let* iconHash := getIconHash_t app_id in
  match iconHash with
  | None | Some EmptyString => Done (Returns None)
  | Some iconHash =>
      let url := steamIconBase ++ app_id ++ "/" ++ iconHash ++ ".ico" in
      sync (console_log url) ;;*
      match fetch E url with
      | FetchThrows => await (throw (FetchError url))
      | FetchOk body =>
          let dest := Path.join [tmpDir C; iconHash] in
          await (ret tt) ;;*
          await (Fs.writeStream_wx dest body) ;;*
          Done (Returns (Some dest))
      | FetchNotOk text =>
          await (ret tt) ;;*
          await (console_error ("Could not fetch icon! " ++ text)) ;;*
          Done (Returns None)
      | FetchHangs => Stuck
      end
  end.

Definition exec_icotool_t (src : option string) (dest : string) : task unit :=
  Await (fun w =>
           match icotool E (files w !! default "null" src) with
           | IcoHangs => Stuck
           | _ => Done (exec_icotool src dest w).1
           end)
        (fun w => (exec_icotool src dest w).2).

Definition extractIco_t (src : option string) (dest : string)
    : task (list (option IconCandidate)) :=
  await (Fs.mkdir dest) ;;*
  exec_icotool_t src dest ;;*
  let* files := await (Fs.readdir dest) in
  Done (Returns (map (parse_size dest) files)).

Definition place_t (app_id : string) (highestDepth : jsnum) (v : IconCandidate)
    (succeeded : bool) : task bool :=
  Run (fun w =>
         if negb (String.eqb (height v) (width v)) then Done (Returns succeeded)
         else if negb (num_eqb (ToNumber (bitdepth v)) highestDepth) then
           Done (Returns succeeded)
         else if negb (Fs.existsSync (iconDir v) w) then Done (Returns succeeded)
         else if Fs.existsSync (destPath app_id v) w then Done (Returns true)
         else
           try_t (await (Fs.copyFile (path v) (destPath app_id v)) ;;*
                  Done (Returns true))
                 (fun _ => Done (Returns succeeded)))
      (fun w =>
         if negb (String.eqb (height v) (width v))
         then print (Err ("Icon '" ++ path v ++ "' is not square!")) w
         else w).

Fixpoint place_all_t (app_id : string) (highestDepth : jsnum)
    (sizes : list (option IconCandidate)) (succeeded : bool) : task bool :=
  match sizes with
  | [] => Done (Returns succeeded)
  | None :: _ => Done (Throws null_deref)
  | Some v :: rest =>
      let* succeeded' := place_t app_id highestDepth v succeeded in
      place_all_t app_id highestDepth rest succeeded'
  end.

Definition install_sizes_t (app_id : string)
    (sizes : list (option IconCandidate)) : task bool :=
  match bitdepths sizes with
  | None => Done (Throws null_deref)
  | Some depths =>
      let highestDepth := Math_max (map ToNumber depths) in
      place_all_t app_id highestDepth sizes false
  end.

Definition installIcon_t (app_id : string) : task bool :=
  let* ico := downloadIcon_t app_id in
  let* sizes := extractIco_t ico (Path.join [tmpDir C; app_id ++ "/"]) in
  install_sizes_t app_id sizes.

Definition log_t (e : js_error) : task unit := sync (log_caught e).

Definition createDesktopFile_t (dir : string) : task unit :=
  let gamePath := Path.join [steamCommonPath C; dir] in
  try_t
    (let* isDirectory := await (Fs.stat_isDirectory gamePath) in
     if negb isDirectory then Done (Returns tt)
     else
       let appidFilePath := Path.join [gamePath; "steam_appid.txt"] in
       try_t
         (Run (fun w =>
                 if negb (Fs.existsSync appidFilePath w) then Done (Returns tt)
                 else
                   let* fd := await (Fs.readFile appidFilePath) in
                   let game := MkGame dir (Str.first_field "010" fd) in
                   let* installed := installIcon_t (id game) in
                   let icon :=
                     if installed then "steam_icon_" ++ id game else "steam" in
                   try_t
                     (await (Fs.writeFile
                               (Path.join [applicationPath C;
                                           name game ++ ".desktop"])
                               (desktopFileContent game icon)) ;;*
                      sync (console_log ("Created .desktop file for '"
                                         ++ name game ++ "' (" ++ id game
                                         ++ ").")))
                     log_t)
              (fun w => w))
         log_t)
    log_t.

(** [files.map(async (file) => { await createDesktopFile(file) })]: every
    entry is started and runs to its first await; none is awaited. *)
Fixpoint dispatch (files : list string) (w : world) : pool * world :=
  match files with
  | [] => ([], w)
  | file :: rest =>
      let '(cs, t, w1) := advance (createDesktopFile_t file) w in
      let '(p, w2) := dispatch rest w1 in
      ((cs ++ t :: p)%list, w2)
  end.

Definition show_nat (n : nat) : string := pretty n.

(** [createAllDesktops] returns once the entries are started: the tasks it
    leaves behind are its result here. *)
Definition createAllDesktops : M pool := fun w =>
  if negb (Fs.existsSync (steamCommonPath C) w) then
    (Exits 1, print (Err "Invalid path.") w)
  else
    try_catch
      (let! files := Fs.readdir (steamCommonPath C) in
       console_log ("Found " ++ show_nat (length files) ++ " games.") ;;
       console_log "Creating .desktop files..." ;;
       fun w' => let '(p, w'') := dispatch files w' in (Returns p, w''))
      (fun e => log_caught e ;; ret []) w.

End Script.

(** The module's top level: the exit status, if the process has ended, and
    the world it leaves.  The started tasks resume in the order of
    [completions]; the process ends with status 0 once nothing of them is
    outstanding, and has not ended ([None]) while an operation has not
    completed, be it that [completions] stops short of it or that it never
    will. *)
Definition main (E : env) (w : world) : option nat * world :=
  match argv E with
  | [] => (Some 1%nat, print (Err "No path provided") w)
  | Numeric :: _ => (Some 1%nat, w)    (* normalize(number) throws *)
  | Text arg :: _ =>
      match HOME E with
      | None => (Some 1%nat, w)        (* join(undefined, ...) throws *)
      | Some home =>
          let steamLibPath := Path.normalize arg in
          match Fs.mkdtemp (Path.join [os_tmpdir E; "sdfg-"]) (mkdtemp_suffix E) w with
          | (Returns tmp, w1) =>
              let C := Config (Path.join [steamLibPath; "steamapps"; "common"])
                              (Path.join [home; ".local"; "share"; "applications"; "steam"])
                              (Path.join [home; ".local"; "share"; "icons"; "hicolor"])
                              tmp in
              match createAllDesktops E C w1 with
              | (Returns p, w2) =>
                  let '(p', w3) := run_pool (completions E) p w2 in
                  (if forallb finished p' then Some 0%nat else None, w3)
              | (Exits code, w2) => (Some code, w2)
              | (Throws _, w2) => (Some 1%nat, w2)
              | (Pending, w2) => (None, w2)
              end
          | (_, w1) => (Some 1%nat, w1)
          end
      end
  end.


(** ** Vocabulary of the statements *)

Local Open Scope list_scope.

(** The events that [w'] has on top of those of [w]. *)
Definition fresh_events (w w' : world) : list fs_event :=
  take (length (events w') - length (events w)) (events w').

(** The two tests of the selection loop that look at the candidate alone. *)
Definition accepted (highestDepth : jsnum) (v : IconCandidate) : bool :=
  String.eqb (height v) (width v)
  && num_eqb (ToNumber (bitdepth v)) highestDepth.

Definition is_copy (e : fs_event) : bool :=
  match e with EvCopy _ _ => true | _ => false end.

Definition is_write (e : fs_event) : bool :=
  match e with EvWrite _ _ => true | _ => false end.

(** [w'] comes after [w]: the events of [w] with new ones on top, all of
    them in [P]; no directory and no file name is lost. *)
Definition grows (P : fs_event → Prop) (w w' : world) : Prop :=
  ∃ new, events w' = new ++ events w
         ∧ Forall P new
         ∧ dirs w ⊆ dirs w'
         ∧ ∀ k, is_Some (files w !! k) → is_Some (files w' !! k).

Definition traced {A} (P : fs_event → Prop) (m : M A) : Prop :=
  ∀ w, grows P w (m w).2.

(** Neither a copy into the theme nor a shortcut. *)
Definition unplaced (e : fs_event) : Prop :=
  is_copy e = false ∧ is_write e = false.

Definition unwritten (e : fs_event) : Prop := is_write e = false.

(** The names [readdir] lists, none when it throws. *)
Definition entries_of (p : string) (w : world) : list string :=
  match (Fs.readdir p w).1 with
  | Returns names => names
  | _ => []
  end.

(** The shortcuts among some events: file name and contents. *)
Definition shortcuts (l : list fs_event) : list (string * string) :=
  omap (fun e => match e with EvWrite p c => Some (p, c) | _ => None end) l.

(** The shortcut of directory [dir], for the id found in its marker. *)
Definition shortcut_of (C : config) (dir id : string) (installed : bool)
    : string * string :=
  (Path.join [applicationPath C; dir +:+ ".desktop"],
   desktopFileContent (MkGame dir id)
     (if installed then "steam_icon_" +:+ id else "steam")).

Definition shortcutPath (C : config) (dir : string) : string :=
  Path.join [applicationPath C; dir +:+ ".desktop"].

Definition markerPath (C : config) (dir : string) : string :=
  Path.join [Path.join [steamCommonPath C; dir]; "steam_appid.txt"].







(** The directory [mkdtemp] makes when the script starts. *)
Definition startup_tmp (E : env) : string :=
  Path.join [os_tmpdir E; "sdfg-"] +:+ mkdtemp_suffix E.

Section LoopVocabulary.

Variable C : config.
Variable app_id : string.
Variable highestDepth : jsnum.

(** What one turn of the loop can do. *)
Inductive turn (v : IconCandidate) (s : bool) (w : world)
    : outcome bool * world → Prop :=
| turn_skipped w' :
    files w' = files w → dirs w' = dirs w → events w' = events w →
    accepted highestDepth v && Fs.existsSync (iconDir C v) w
      && Fs.existsSync (destPath C app_id v) w = false →
    turn v s w (Returns s, w')
| turn_unplaced e :
    accepted highestDepth v = true →
    Fs.existsSync (iconDir C v) w = true →
    Fs.existsSync (destPath C app_id v) w = false →
    Fs.copyFile (path v) (destPath C app_id v) w = (Throws e, w) →
    turn v s w (Returns s, w)
| turn_present :
    accepted highestDepth v = true →
    Fs.existsSync (iconDir C v) w = true →
    Fs.existsSync (destPath C app_id v) w = true →
    turn v s w (Returns true, w)
| turn_copied content :
    accepted highestDepth v = true →
    Fs.existsSync (iconDir C v) w = true →
    Fs.existsSync (destPath C app_id v) w = false →
    files w !! path v = Some content →
    files w !! destPath C app_id v = None →
    turn v s w (Returns true,
                emit (EvCopy (path v) (destPath C app_id v))
                  (with_files (<[destPath C app_id v := content]> (files w)) w)).

(** A candidate that needs no copy: accepted, and both its theme directory
    and its destination are there. *)
Definition present_at (w : world) (v : IconCandidate) : Prop :=
  accepted highestDepth v = true
  ∧ Fs.existsSync (iconDir C v) w = true
  ∧ Fs.existsSync (destPath C app_id v) w = true.

(** A copy the loop may make from [w]: of an accepted candidate of the
    list, onto a name that is free in [w]. *)
Definition lawful_copy (sizes : list (option IconCandidate)) (w : world)
    (e : fs_event) : Prop :=
  ∃ v, Some v ∈ sizes
       ∧ accepted highestDepth v = true
       ∧ e = EvCopy (path v) (destPath C app_id v)
       ∧ files w !! destPath C app_id v = None.

Record loop_run (sizes : list (option IconCandidate)) (s : bool)
    (w : world) (b : bool) (new : list fs_event) (w' : world) : Prop := {
  run_events : events w' = new ++ events w;
  run_dirs : dirs w' = dirs w;
  run_files : ∀ k c, files w !! k = Some c → files w' !! k = Some c;
  run_idle : new = [] → files w' = files w;
  run_copies : Forall (lawful_copy sizes w) new;
  run_copied : ∀ src dst, EvCopy src dst ∈ new → is_Some (files w' !! dst);
  run_keeps : s = true → b = true;
  run_placed : new ≠ [] → b = true;
  run_present : ∀ v, Some v ∈ sizes → present_at w v → b = true;
  run_why : b = true →
            s = true ∨ new ≠ [] ∨ ∃ v, Some v ∈ sizes ∧ present_at w v;
}.

End LoopVocabulary.



(** [highestDepth] of [installIcon] for a list without [null]. *)
Definition highestDepth_of (cands : list IconCandidate) : jsnum :=
  Math_max (map (fun c => ToNumber (bitdepth c)) cands).

(** *** A small machine to run the script on

    A home directory with the launcher directory and three sizes of the
    hicolor theme, a library with two games, and an extraction directory
    holding the three images of the selection example. *)

Module Demo.

Definition base_dirs : list string :=
  ["/"; "/tmp"; "/lib"; "/lib/steamapps"; "/lib/steamapps/common";
   "/lib/steamapps/common/Portal"; "/lib/steamapps/common/Dota";
   "/home"; "/home/u"; "/home/u/.local";
   "/home/u/.local/share"; "/home/u/.local/share/applications";
   "/home/u/.local/share/icons"; "/home/u/.local/share/icons/hicolor";
   "/home/u/.local/share/icons/hicolor/64x64";
   "/home/u/.local/share/icons/hicolor/64x64/apps";
   "/home/u/.local/share/icons/hicolor/32x16";
   "/home/u/.local/share/icons/hicolor/32x16/apps";
   "/home/u/.local/share/icons/hicolor/16x16";
   "/home/u/.local/share/icons/hicolor/16x16/apps"].

Definition launcher_dir : string := "/home/u/.local/share/applications/steam".

Definition cfg : config :=
  Config "/lib/steamapps/common"
         launcher_dir
         "/home/u/.local/share/icons/hicolor"
         "/tmp/sdfg-AbCdEf".

(** *** Worlds for the selection loop: application 440 is unpacked *)

Definition c64 : IconCandidate :=
  Candidate "/tmp/sdfg-AbCdEf/440/i_1_64x64x32.png" "64" "64" "32".
Definition c64low : IconCandidate :=
  Candidate "/tmp/sdfg-AbCdEf/440/i_2_64x64x8.png" "64" "64" "8".
Definition c32x16 : IconCandidate :=
  Candidate "/tmp/sdfg-AbCdEf/440/i_3_32x16x32.png" "32" "16" "32".

(** The candidates (64,64,32), (64,64,8) and (32,16,32). *)
Definition selection_example : list IconCandidate := [c64; c64low; c32x16].

Definition extracted : gmap string string :=
  list_to_map [(path c64, "png 64 32"); (path c64low, "png 64 8");
               (path c32x16, "png 32x16")].

Definition loop_dirs : gset string :=
  list_to_set (launcher_dir :: "/tmp/sdfg-AbCdEf" :: "/tmp/sdfg-AbCdEf/440"
               :: base_dirs).

(** Nothing installed yet. *)
Definition w0 : world := World extracted loop_dirs ∅ [] 0 [].

(** The 64x64 icon of application 440 is there from an earlier run. *)
Definition w_installed : world :=
  World (<[destPath cfg "440" c64 := "old png"]> extracted)
        loop_dirs ∅ [] 0 [].

(** The 64x64 directory of the theme is write-protected. *)
Definition w_protected : world :=
  World extracted loop_dirs
        {["/home/u/.local/share/icons/hicolor/64x64/apps"]} [] 0 [].

(** *** Worlds for the whole script *)

Definition quoted (s : string) : string :=
  String Regex.dquote s ++ String Regex.dquote "".

(** A line of the output of steamcmd that carries the hash. *)
Definition clienticon_line (hash : string) : string :=
  "		" ++ quoted "clienticon" ++ "		" ++ quoted hash ++ "
".

(** The operations of a task complete before those of the next task. *)
Definition in_turn : list nat := flat_map (replicate 24) (seq 0 8).

(** steamcmd knows application 440, prints nothing useful for 570 but
    exits cleanly, and fails for anything else; the download works;
    icotool unpacks any file it is given and fails without one; the
    operations complete task by task. *)
Definition E : env :=
  Env [Text "/lib/"] (Some "/home/u") "/tmp" "AbCdEf"
      (fun app_id =>
         if String.eqb app_id "440"
         then [Data "Steam Console Client
"; Data (clienticon_line "deadbeef"); Close (Some 0%nat)]
         else if String.eqb app_id "570"
         then [Data "No app info
"; Close (Some 0%nat)]
         else [Data "ERROR
"; Close (Some 1%nat)])
      (fun url => FetchOk "ico bytes")
      (fun src =>
         match src with
         | Some _ => IcoOk [("deadbeef_1_64x64x32.png", "png 64 32");
                            ("deadbeef_2_64x64x8.png", "png 64 8");
                            ("deadbeef_3_32x16x32.png", "png 32x16")]
         | None => IcoFail "icotool: cannot open file"
         end)
      in_turn.

(** icotool rejects whatever it is given. *)
Definition E_corrupt : env :=
  Env (argv E) (HOME E) (os_tmpdir E) (mkdtemp_suffix E) (steamcmd E) (fetch E)
      (fun src => IcoFail "icotool: not an icon file") (completions E).

(** icotool leaves a file whose name carries no size. *)
Definition E_notes : env :=
  Env (argv E) (HOME E) (os_tmpdir E) (mkdtemp_suffix E) (steamcmd E) (fetch E)
      (fun src => IcoOk [("deadbeef_1_64x64x32.png", "png 64 32");
                         ("notes.txt", "not an image")])
      (completions E).

Definition marker (game : string) : string :=
  "/lib/steamapps/common/" ++ game ++ "/steam_appid.txt".

(** The library holds Portal alone, with the given marker file. *)
Definition library (appid_txt : string) (launcher : bool) : world :=
  World {[marker "Portal" := appid_txt]}
        (list_to_set ((if launcher then [launcher_dir] else [])
                      ++ "/tmp/sdfg-AbCdEf" :: base_dirs)
         ∖ {["/lib/steamapps/common/Dota"]})
        ∅ [] 0 [].

Definition appid_440 : string := "440
".

(** The library with Portal, application 440, and the launcher directory. *)
Definition w_portal : world := library appid_440 true.

(** The icon of application 440 is downloaded, not yet unpacked. *)
Definition ico : string := "/tmp/sdfg-AbCdEf/deadbeef".
Definition downloaded : world :=
  with_files (<[ico := "ico bytes"]> (files (library "440
" true))) (library "440
" true).

(** Before the script starts: no temporary directory yet. *)
Definition boot (dirs : list string) : world :=
  World {[marker "Portal" := "440
"]} (list_to_set dirs) ∅ [] 0 [].

End Demo.

(** ** Vocabulary of the further properties *)

(** The capturing groups of a pattern, in order: the class each of them
    repeats and the least number of characters it takes. *)
Fixpoint captures_of (r : list Regex.atom) : list ((ascii → bool) * nat) :=
  match r with
  | [] => []
  | Regex.CapRep p min :: r' => (p, min) :: captures_of r'
  | _ :: r' => captures_of r'
  end.

(** A captured text fits its group. *)
Definition capture_ok (pm : (ascii → bool) * nat) (c : string) : Prop :=
  forallb pm.1 (Str.chars c) = true ∧ (pm.2 ≤ length (Str.chars c))%nat.

(** A promise resolved with a hash holds a text that [steamcmdRegex] can
    capture: not empty, no quote in it. *)
Definition good_hash (st : promise_state) : Prop :=
  match st with
  | Resolved hash =>
      hash ≠ EmptyString ∧ forallb Regex.not_quote (Str.chars hash) = true
  | _ => True
  end.

(** A greedy repetition of [p] stops in front of [rest]. *)
Definition stops (p : ascii → bool) (rest : list ascii) : Prop :=
  match rest with
  | [] => True
  | c :: _ => p c = false
  end.

Definition is_x (c : ascii) : bool := Ascii.eqb c "x".

(** The destinations of the copies among some events. *)
Definition copy_targets (l : list fs_event) : list string :=
  omap (fun e => match e with EvCopy _ dst => Some dst | _ => None end) l.

(** [gamePath] of [createDesktopFile]. *)
Definition gamePath (C : config) (dir : string) : string :=
  Path.join [steamCommonPath C; dir].

(** The directory [installIcon] has the icon unpacked into. *)
Definition sizesDir (C : config) (app_id : string) : string :=
  Path.join [tmpDir C; app_id +:+ "/"].

(** [createDesktopFile] with its three handlers resolved, step by step. *)
Definition entry_steps (E : env) (C : config) (dir : string) (w : world)
    : outcome unit * world :=
  if Fs.is_dir (gamePath C dir) w then
    if Fs.existsSync (markerPath C dir) w then
      match Fs.readFile (markerPath C dir) w with
      | (Returns fd, _) =>
          let id := Str.first_field "010" fd in
          match installIcon E C id w with
          | (Returns installed, w1) =>
              match Fs.check_target (shortcutPath C dir) w1 with
              | None =>
                  (Returns tt,
                   print (Out ("Created .desktop file for '" +:+ dir
                               +:+ "' (" +:+ id +:+ ")."))
                     (emit (EvWrite (shortcutPath C dir)
                                    (shortcut_of C dir id installed).2)
                        (with_files
                           (<[shortcutPath C dir
                              := (shortcut_of C dir id installed).2]> (files w1))
                           w1)))
              | Some e => (Returns tt, print (Err (show_error e)) w1)
              end
          | (Throws e, w1) => (Returns tt, print (Err (show_error e)) w1)
          | (Pending, w1) => (Pending, w1)
          | (Exits code, w1) => (Exits code, w1)
          end
      | (Throws e, _) => (Returns tt, print (Err (show_error e)) w)
      | (Pending, _) => (Pending, w)
      | (Exits code, _) => (Exits code, w)
      end
    else (Returns tt, w)
  else if Fs.is_file (gamePath C dir) w then (Returns tt, w)
  else (Returns tt,
        print (Err (show_error (FsError "ENOENT" (gamePath C dir)))) w).

(** The promise of an asynchronous function is fulfilled or rejected: it
    neither stays pending nor ends the process. *)
Definition settled {A} (o : outcome A) : Prop :=
  match o with
  | Returns _ | Throws _ => True
  | Pending | Exits _ => False
  end.

Definition settles {A} (m : M A) : Prop := ∀ w, settled (m w).1.


(** A text without a line feed. *)
Definition one_line (s : string) : Prop :=
  forallb (fun c => negb (Ascii.eqb c "010")) (Str.chars s) = true.

(** No condition on the events. *)
Definition every_event (e : fs_event) : Prop := True.

(** The world once [mkdtemp] has made the temporary directory. *)
Definition after_mkdtemp (E : env) (w : world) : world :=
  emit (EvMkdir (startup_tmp E))
       (with_dirs ({[startup_tmp E]} ∪ dirs w) w).

(** [steamCommonPath] for the library given on the command line. *)
Definition common_of (arg : string) : string :=
  Path.join [Path.normalize arg; "steamapps"; "common"].

(** *** Tasks and pools: vocabulary *)

(** Every step of the task, from whatever world it starts in, takes the
    world to one that [R] relates to it; so does every step of the children
    it starts. *)
Fixpoint along {A : Type} (R : world → world → Prop) (t : task A) : Prop :=
  match t with
  | Run n e | Await n e => (∀ w, R w (e w)) ∧ ∀ w, along R (n w)
  | Spawn c k => along R c ∧ along R k
  | _ => True
  end.

(** Every step of the task adds events of [P] only and loses no directory
    and no file name. *)
Definition traced_t {A : Type} (P : fs_event → Prop) (t : task A) : Prop :=
  along (grows P) t.

(** The top level gets as far as [createAllDesktops]: HOME is set and
    [mkdtemp] can make the temporary directory. *)
Definition gets_going (E : env) (w : world) : bool :=
  match HOME E with
  | Some _ =>
      negb (Fs.existsSync (startup_tmp E) w)
      && match Fs.check_parent (startup_tmp E) w with
         | None => true
         | Some _ => false
         end
  | None => false
  end.








(** An operation that neither reads nor sets the index of the shared
    pattern. *)
Definition blind_op {A : Type} (m : M A) : Prop :=
  ∀ w i, (m (with_lastIndex i w)).1 = (m w).1
         ∧ (m (with_lastIndex i w)).2 = with_lastIndex i (m w).2.



(** *** More machines to run the script on *)

Module Cases.

Definition banner : string := "Steam Console Client (c) Valve Corporation
".

(** steamcmd prints the hash and then fails. *)
Definition E_late : env :=
  Env (argv Demo.E) (HOME Demo.E) (os_tmpdir Demo.E) (mkdtemp_suffix Demo.E)
      (fun app_id => [Data (Demo.clienticon_line "deadbeef"); Close (Some 1%nat)])
      (fetch Demo.E) (icotool Demo.E) (completions Demo.E).

(** steamcmd prints the hash of application 440 after a banner, in one
    chunk, and the hash of any other application in a short chunk. *)
Definition E_pair : env :=
  Env (argv Demo.E) (HOME Demo.E) (os_tmpdir Demo.E) (mkdtemp_suffix Demo.E)
      (fun app_id =>
         if String.eqb app_id "440"
         then [Data (banner +:+ Demo.clienticon_line "deadbeef");
               Close (Some 0%nat)]
         else [Data (Demo.clienticon_line "cafe"); Close (Some 0%nat)])
      (fetch Demo.E) (icotool Demo.E) (completions Demo.E).

(** The server of the icons never answers. *)
Definition E_silent : env :=
  Env (argv Demo.E) (HOME Demo.E) (os_tmpdir Demo.E) (mkdtemp_suffix Demo.E)
      (steamcmd Demo.E) (fun url => FetchHangs) (icotool Demo.E)
      (completions Demo.E).

(** The directory application 440 is unpacked into, and what [extractIco]
    returns for it on the machine of [Demo]. *)
Definition dest440 : string := "/tmp/sdfg-AbCdEf/440/".

Definition d64 : IconCandidate :=
  Candidate "/tmp/sdfg-AbCdEf/440/deadbeef_1_64x64x32.png" "64" "64" "32".
Definition d64low : IconCandidate :=
  Candidate "/tmp/sdfg-AbCdEf/440/deadbeef_2_64x64x8.png" "64" "64" "8".
Definition d32x16 : IconCandidate :=
  Candidate "/tmp/sdfg-AbCdEf/440/deadbeef_3_32x16x32.png" "32" "16" "32".

Definition unpacked_cands : list IconCandidate := [d32x16; d64; d64low].

Definition unpacked : list (option IconCandidate) := map Some unpacked_cands.

(** Two directories of the library carry the id 440. *)
Definition twins : world :=
  World {[Demo.marker "Portal" := Demo.appid_440;
          Demo.marker "Dota" := Demo.appid_440]}
        (list_to_set (Demo.launcher_dir :: "/tmp/sdfg-AbCdEf" :: Demo.base_dirs))
        ∅ [] 0 [].

(** The shortcut of Portal is there from an earlier run. *)
Definition w_relaunch : world :=
  with_files (<[shortcutPath Demo.cfg "Portal" := "old shortcut"]>
                (files Demo.w_portal))
             Demo.w_portal.





(** A regular file sits where the directory of the games should be. *)
Definition w_common_file : world :=
  World {["/lib/steamapps/common" := "not a directory"%string]}
        (list_to_set (filter (fun d => Path.dirname d ≠ "/lib/steamapps/common"
                                       ∧ d ≠ "/lib/steamapps/common")
                             Demo.base_dirs))
        ∅ [] 0 [].


End Cases.

(** ** Lemmas on paths and filesystem calls *)

Lemma canon_no_slash p : Str.ends_with_slash p = false → Path.canon p = p.
Proof. intros H. unfold Path.canon. by rewrite H. Qed.

Lemma fresh_events_app w w' new :
  events w' = new ++ events w → fresh_events w w' = new.
Proof.
  intros H. unfold fresh_events. rewrite H, length_app.
  apply take_app_length'. lia.
Qed.

Lemma existsSync_false_file p w :
  Fs.existsSync p w = false → Str.ends_with_slash p = false →
  files w !! p = None.
Proof.
  unfold Fs.existsSync, Fs.is_file. intros H Hs.
  apply orb_false_iff in H as [_ H]. rewrite Hs in H. simpl in H.
  rewrite canon_no_slash in H by done.
  apply bool_decide_eq_false in H. by apply eq_None_not_Some.
Qed.

(** The outcome of [copyFile], read off its definition. *)
Lemma copyFile_cases src dst w :
  (∃ e, Fs.copyFile src dst w = (Throws e, w))
  ∨ (∃ content,
        files w !! src = Some content
        ∧ Str.ends_with_slash dst = false
        ∧ Fs.copyFile src dst w
          = (Returns tt, emit (EvCopy src dst)
                           (with_files (<[dst := content]> (files w)) w))).
Proof.
  unfold Fs.copyFile, Fs.check_target.
  destruct (files w !! src) as [content|]; [|by eauto].
  destruct (Fs.is_dir dst w); [by eauto|].
  destruct (Str.ends_with_slash dst) eqn:Hs; [by eauto|].
  destruct (Fs.check_parent dst w); [by eauto|].
  right. by exists content.
Qed.

Lemma existsSync_ext p w w' :
  files w' = files w → dirs w' = dirs w →
  Fs.existsSync p w' = Fs.existsSync p w.
Proof.
  intros Hf Hd. unfold Fs.existsSync, Fs.is_dir, Fs.is_file.
  by rewrite Hf, Hd.
Qed.

(** ** The selection loop of [installIcon] *)

Section Loop.

Variable C : config.
Variable app_id : string.
Variable highestDepth : jsnum.

Lemma place_turn v s w :
  turn C app_id highestDepth v s w (place C app_id highestDepth v s w).
Proof.
  unfold place.
  destruct (String.eqb (height v) (width v)) eqn:Hsq; simpl.
  2:{ apply turn_skipped; try done. unfold accepted. by rewrite Hsq. }
  destruct (num_eqb (ToNumber (bitdepth v)) highestDepth) eqn:Hd; simpl.
  2:{ apply turn_skipped; try done. unfold accepted. by rewrite Hsq, Hd. }
  assert (Ha : accepted highestDepth v = true)
    by (unfold accepted; by rewrite Hsq, Hd).
  destruct (Fs.existsSync (iconDir C v) w) eqn:Hdir; simpl.
  2:{ apply turn_skipped; try done. by rewrite Ha, Hdir. }
  destruct (Fs.existsSync (destPath C app_id v) w) eqn:Hdst.
  { by apply turn_present. }
  unfold try_catch, bind, ret.
  destruct (copyFile_cases (path v) (destPath C app_id v) w)
    as [[e He]|(content & Hsrc & Hs & Hc)].
  - rewrite He. by eapply turn_unplaced.
  - rewrite Hc. apply turn_copied; try done.
    by apply existsSync_false_file.
Qed.

Lemma place_all_run sizes : ∀ s w,
  Forall is_Some sizes →
  ∃ b new w',
    place_all C app_id highestDepth sizes s w = (Returns b, w')
    ∧ loop_run C app_id highestDepth sizes s w b new w'.
Proof.
  induction sizes as [|[v|] rest IH]; intros s w Hall.
  - exists s, [], w. split; [done|].
    split; try done.
    + intros src dst Hin. by apply elem_of_nil in Hin.
    + intros v Hv. by apply elem_of_nil in Hv.
    + intros ->. by left.
  - apply Forall_cons in Hall as [_ Hall].
    cbn [place_all]. unfold bind at 1.
    destruct (place_turn v s w)
      as [w1 Hf Hd He Hno | e Ha Hdir Hdst Hcopy | Ha Hdir Hdst
         | content Ha Hdir Hdst Hsrc Hfree].
    + (* the candidate is passed over *)
      destruct (IH s w1 Hall) as (b & new & w' & -> & R).
      destruct R. exists b, new, w'. split; [done|].
      assert (Hex : ∀ p, Fs.existsSync p w1 = Fs.existsSync p w)
        by (intros p; by apply existsSync_ext).
      split.
      * by rewrite <- He.
      * by rewrite <- Hd.
      * intros k c Hk. apply run_files0. by rewrite Hf.
      * intros Hn. rewrite <- Hf. by apply run_idle0.
      * eapply Forall_impl; [exact run_copies0|].
        intros e (u & Hu & Hau & -> & Hfree). exists u.
        rewrite <- Hf. split_and!; try done. by apply elem_of_cons; right.
      * done.
      * done.
      * done.
      * intros u [->%(inj Some)|Hu]%elem_of_cons (Hau & Hdu & Hpu).
        -- by rewrite Hau, Hdu, Hpu in Hno.
        -- apply (run_present0 u Hu). unfold present_at.
           by rewrite !Hex.
      * intros Hb. destruct (run_why0 Hb) as [?|[?|(u & Hu & Hau & Hdu & Hpu)]];
          [by left|by right; left|].
        right; right. exists u. rewrite !Hex in *.
        split; [by apply elem_of_cons; right|done].
    + (* the copy failed: nothing changed *)
      destruct (IH s w Hall) as (b & new & w' & -> & R).
      destruct R. exists b, new, w'. split; [done|].
      split; try done.
      * eapply Forall_impl; [exact run_copies0|].
        intros e' (u & Hu & Hau & -> & Hfree). exists u.
        split_and!; try done. by apply elem_of_cons; right.
      * intros u [->%(inj Some)|Hu]%elem_of_cons (Hau & Hdu & Hpu).
        -- congruence.
        -- by apply (run_present0 u Hu).
      * intros Hb. destruct (run_why0 Hb) as [?|[?|(u & Hu & Hp)]];
          [by left|by right; left|].
        right; right. exists u. split; [by apply elem_of_cons; right|done].
    + (* the destination is there already *)
      destruct (IH true w Hall) as (b & new & w' & -> & R).
      destruct R. exists b, new, w'. split; [done|].
      assert (b = true) as -> by by apply run_keeps0.
      split; try done.
      * eapply Forall_impl; [exact run_copies0|].
        intros e' (u & Hu & Hau & -> & Hfree). exists u.
        split_and!; try done. by apply elem_of_cons; right.
      * intros _. right; right. exists v.
        split; [by apply elem_of_cons; left|done].
    + (* the candidate is copied *)
      set (w1 := emit _ _).
      destruct (IH true w1 Hall) as (b & new & w' & -> & R).
      destruct R. exists b, (new ++ [EvCopy (path v) (destPath C app_id v)]), w'.
      split; [done|].
      assert (b = true) as -> by by apply run_keeps0.
      assert (Hmono : ∀ k c, files w !! k = Some c → files w1 !! k = Some c).
      { intros k c Hk. subst w1. simpl.
        rewrite lookup_insert_ne; [done|]. intros <-. congruence. }
      split.
      * rewrite run_events0. subst w1. simpl. by rewrite <- app_assoc.
      * done.
      * intros k c Hk. by apply run_files0, Hmono.
      * intros Hn. by destruct new.
      * apply Forall_app. split.
        -- eapply Forall_impl; [exact run_copies0|].
           intros e' (u & Hu & Hau & -> & Hfu). exists u.
           split_and!; try done; [by apply elem_of_cons; right|].
           destruct (files w !! destPath C app_id u) as [c|] eqn:Hc; [|done].
           apply Hmono in Hc. congruence.
        -- apply Forall_singleton. exists v.
           split_and!; try done. by apply elem_of_cons; left.
      * intros src dst [Hin|Hin%list_elem_of_singleton]%elem_of_app.
        -- by apply (run_copied0 src).
        -- injection Hin as -> ->. exists content. apply run_files0.
           subst w1. simpl. by rewrite lookup_insert_eq.
      * done.
      * done.
      * done.
      * intros _. right; left. by destruct new.
  - apply Forall_cons in Hall as [[? [=]] _].
Qed.

End Loop.

Lemma bitdepths_some cands :
  bitdepths (map Some cands) = Some (map bitdepth cands).
Proof.
  induction cands as [|c cands IH]; [done|].
  simpl. by rewrite IH.
Qed.

Lemma Forall_is_Some_map {A} (l : list A) : Forall is_Some (map Some l).
Proof. induction l; constructor; eauto. Qed.

Lemma install_sizes_run C app_id cands w :
  ∃ b new w',
    install_sizes C app_id (map Some cands) w = (Returns b, w')
    ∧ loop_run C app_id (highestDepth_of cands) (map Some cands) false w b new w'.
Proof.
  unfold install_sizes. rewrite bitdepths_some, map_map.
  apply place_all_run, Forall_is_Some_map.
Qed.

Lemma num_eqb_eq a b : num_eqb a b = true → a = b.
Proof.
  destruct a, b; simpl; try done.
  by intros ->%N.eqb_eq.
Qed.

Lemma accepted_spec hd v :
  accepted hd v = true → width v = height v ∧ ToNumber (bitdepth v) = hd.
Proof.
  unfold accepted. intros [Hsq Hd]%andb_true_iff.
  apply String.eqb_eq in Hsq. apply num_eqb_eq in Hd. done.
Qed.

(** ** The claims on the selection loop *)




(** C7. When the destination of an accepted candidate is already a file of
    its theme directory, its turn changes nothing and sets the flag; the loop
    returns true, the file keeps its contents and nothing is copied onto it.
    No copy of any run lands on a name that exists, so a second run on the
    world the first one left never repeats a copy. *)
Theorem installIcon_keeps_existing_icon C app_id cands w v content :
  v ∈ cands →
  accepted (highestDepth_of cands) v = true →
  Fs.existsSync (iconDir C v) w = true →
  Fs.existsSync (destPath C app_id v) w = true →
  files w !! destPath C app_id v = Some content →
  let run := install_sizes C app_id (map Some cands) in
  (∀ s, place C app_id (highestDepth_of cands) v s w = (Returns true, w))
  ∧ (run w).1 = Returns true
  ∧ files (run w).2 !! destPath C app_id v = Some content
  ∧ (∀ src, EvCopy src (destPath C app_id v) ∉ fresh_events w (run w).2)
  ∧ (∀ src dst, EvCopy src dst ∈ fresh_events w (run w).2 →
       files w !! dst = None
       ∧ ∀ src', EvCopy src' dst
                   ∉ fresh_events (run w).2 (run (run w).2).2).
Proof.
  intros Hv Ha Hdir Hdst Hc run.
  split.
  { intros s. unfold place.
    apply accepted_spec in Ha as Ha'. unfold accepted in Ha.
    apply andb_true_iff in Ha as [-> ->]. simpl.
    by rewrite Hdir, Hdst. }
  subst run.
  destruct (install_sizes_run C app_id cands w) as (b & new & w1 & Hrun & R).
  destruct (install_sizes_run C app_id cands w1) as (b2 & new2 & w2 & Hrun2 & R2).
  rewrite Hrun. simpl. rewrite Hrun2. simpl.
  rewrite (fresh_events_app _ _ _ (run_events _ _ _ _ _ _ _ _ _ R)).
  rewrite (fresh_events_app _ _ _ (run_events _ _ _ _ _ _ _ _ _ R2)).
  pose proof (run_copies _ _ _ _ _ _ _ _ _ R) as Hlaw.
  pose proof (run_copies _ _ _ _ _ _ _ _ _ R2) as Hlaw2.
  rewrite Forall_forall in Hlaw, Hlaw2.
  split_and!.
  - f_equal. apply (run_present _ _ _ _ _ _ _ _ _ R v).
    + by apply list_elem_of_fmap_2.
    + done.
  - by apply (run_files _ _ _ _ _ _ _ _ _ R).
  - intros src Hin.
    destruct (Hlaw _ Hin) as (u & _ & _ & [= _ Hdu] & Hfree). congruence.
  - intros src dst Hin. split.
    + destruct (Hlaw _ Hin) as (u & _ & _ & [= _ ->] & Hfree). done.
    + intros src' Hin2.
      destruct (Hlaw2 _ Hin2) as (u & _ & _ & [= _ ->] & Hfree).
      destruct (run_copied _ _ _ _ _ _ _ _ _ R _ _ Hin) as [c Hsome].
      congruence.
Qed.

Lemma installIcon_keeps_existing_icon_witness :
  (install_sizes Demo.cfg "440" (map Some Demo.selection_example)
     Demo.w_installed).1 = Returns true
  ∧ files (install_sizes Demo.cfg "440" (map Some Demo.selection_example)
             Demo.w_installed).2 !! destPath Demo.cfg "440" Demo.c64
    = Some "old png".
Proof.
  assert (P1 : Demo.c64 ∈ Demo.selection_example) by apply list_elem_of_here.
  assert (P2 : accepted (highestDepth_of Demo.selection_example) Demo.c64 = true)
    by (vm_compute; reflexivity).
  assert (P3 : Fs.existsSync (iconDir Demo.cfg Demo.c64) Demo.w_installed = true)
    by (vm_compute; reflexivity).
  assert (P4 : Fs.existsSync (destPath Demo.cfg "440" Demo.c64) Demo.w_installed = true)
    by (vm_compute; reflexivity).
  assert (P5 : files Demo.w_installed !! destPath Demo.cfg "440" Demo.c64
               = Some "old png")
    by (vm_compute; reflexivity).
  destruct (installIcon_keeps_existing_icon Demo.cfg "440"
              Demo.selection_example Demo.w_installed Demo.c64 "old png"
              P1 P2 P3 P4 P5) as (_ & H1 & H2 & _).
  exact (conj H1 H2).
Defined.

(** C10. When the copy of an accepted candidate fails, its turn leaves the
    whole world as it was, console included, and the flag as it was, and the
    loop goes on with the remaining candidates.  The loop returns false only
    if it copied nothing and no accepted candidate with a theme directory
    had its destination there. *)
Theorem installIcon_swallows_copy_failure :
  (∀ C app_id highestDepth v s w e rest,
      accepted highestDepth v = true →
      Fs.existsSync (iconDir C v) w = true →
      Fs.existsSync (destPath C app_id v) w = false →
      (Fs.copyFile (path v) (destPath C app_id v) w).1 = Throws e →
      place C app_id highestDepth v s w = (Returns s, w)
      ∧ place_all C app_id highestDepth (Some v :: rest) s w
        = place_all C app_id highestDepth rest s w)
  ∧ (∀ C app_id cands w,
      (install_sizes C app_id (map Some cands) w).1 = Returns false →
      fresh_events w (install_sizes C app_id (map Some cands) w).2 = []
      ∧ files (install_sizes C app_id (map Some cands) w).2 = files w
      ∧ ∀ v, v ∈ cands → ¬ present_at C app_id (highestDepth_of cands) w v).
Proof.
  split.
  - intros C app_id hd v s w e rest Ha Hdir Hdst Hfail.
    assert (Hp : place C app_id hd v s w = (Returns s, w)).
    { unfold place. unfold accepted in Ha.
      apply andb_true_iff in Ha as [-> ->]. simpl.
      rewrite Hdir, Hdst. simpl. unfold try_catch, bind.
      destruct (copyFile_cases (path v) (destPath C app_id v) w)
        as [[e' He]|(content & _ & _ & Hc)].
      - by rewrite He.
      - by rewrite Hc in Hfail. }
    split; [done|]. cbn [place_all]. unfold bind at 1. by rewrite Hp.
  - intros C app_id cands w.
    destruct (install_sizes_run C app_id cands w) as (b & new & w' & -> & R).
    simpl. intros [= ->].
    assert (Hnew : new = []).
    { destruct new as [|e new]; [done|].
      by discriminate (run_placed _ _ _ _ _ _ _ _ _ R). }
    split_and!.
    + rewrite (fresh_events_app _ _ _ (run_events _ _ _ _ _ _ _ _ _ R)). done.
    + by apply (run_idle _ _ _ _ _ _ _ _ _ R).
    + intros v Hv Hp.
      discriminate (run_present _ _ _ _ _ _ _ _ _ R v); [|done].
      by apply list_elem_of_fmap_2.
Qed.

Lemma installIcon_swallows_copy_failure_witness :
  place Demo.cfg "440" (Num 32) Demo.c64 false Demo.w_protected
    = (Returns false, Demo.w_protected)
  ∧ fresh_events Demo.w_protected
      (install_sizes Demo.cfg "440" (map Some Demo.selection_example)
         Demo.w_protected).2 = [].
Proof.
  split.
  - refine (proj1 (proj1 installIcon_swallows_copy_failure
             Demo.cfg "440" (Num 32) Demo.c64 false Demo.w_protected
             (FsError "EACCES" (destPath Demo.cfg "440" Demo.c64)) [] _ _ _ _));
      by vm_compute.
  - refine (proj1 (proj2 installIcon_swallows_copy_failure
             Demo.cfg "440" Demo.selection_example Demo.w_protected _)).
    by vm_compute.
Defined.

(** ** How the world grows *)

Lemma grows_refl P w : grows P w w.
Proof. exists []. split_and!; try done. Qed.

Lemma grows_same P w w' :
  events w' = events w → dirs w' = dirs w → files w' = files w →
  grows P w w'.
Proof.
  intros He Hd Hf. exists []. rewrite He, Hd, Hf. split_and!; done.
Qed.

Lemma grows_trans P w1 w2 w3 : grows P w1 w2 → grows P w2 w3 → grows P w1 w3.
Proof.
  intros (n1 & He1 & Hp1 & Hd1 & Hf1) (n2 & He2 & Hp2 & Hd2 & Hf2).
  exists (n2 ++ n1). split_and!.
  - by rewrite He2, He1, app_assoc.
  - by apply Forall_app.
  - set_solver.
  - auto.
Qed.

Lemma grows_fresh P w w' : grows P w w' → Forall P (fresh_events w w').
Proof. intros (new & He & Hp & _). by rewrite (fresh_events_app _ _ _ He). Qed.

Lemma grows_existsSync P w w' p :
  grows P w w' → Fs.existsSync p w = true → Fs.existsSync p w' = true.
Proof.
  intros (_ & _ & _ & Hd & Hf). unfold Fs.existsSync, Fs.is_dir, Fs.is_file.
  intros [H|H]%orb_true_iff; apply orb_true_iff.
  - left. apply bool_decide_eq_true in H. apply bool_decide_eq_true. set_solver.
  - right. apply andb_true_iff in H as [Hs H%bool_decide_eq_true].
    apply andb_true_iff. split; [done|]. apply bool_decide_eq_true. auto.
Qed.

Lemma grows_emit_file P w e k c :
  P e → grows P w (emit e (with_files (<[k := c]> (files w)) w)).
Proof.
  intros He. exists [e]. split_and!; try done.
  - by apply Forall_singleton.
  - simpl. intros k' Hk'. destruct (decide (k = k')) as [->|Hne].
    + rewrite lookup_insert_eq. eauto.
    + by rewrite lookup_insert_ne.
Qed.

Lemma traced_ret {A} P (a : A) : traced P (ret a).
Proof. intros w. apply grows_refl. Qed.

Lemma traced_throw {A} P e : traced P (@throw A e).
Proof. intros w. apply grows_refl. Qed.

Lemma traced_bind {A B} P (m : M A) (k : A → M B) :
  traced P m → (∀ a, traced P (k a)) → traced P (bind m k).
Proof.
  intros Hm Hk w. unfold bind. specialize (Hm w).
  destruct (m w) as [[a| | |] w1]; simpl in *; try done.
  eapply grows_trans; [exact Hm|apply Hk].
Qed.

Lemma traced_try_catch {A} P (m : M A) (h : js_error → M A) :
  traced P m → (∀ e, traced P (h e)) → traced P (try_catch m h).
Proof.
  intros Hm Hh w. unfold try_catch. specialize (Hm w).
  destruct (m w) as [[a|e| |] w1]; simpl in *; try done.
  eapply grows_trans; [exact Hm|apply Hh].
Qed.

Lemma traced_console_log P s : traced P (console_log s).
Proof. intros w. by apply grows_same. Qed.

Lemma traced_console_error P s : traced P (console_error s).
Proof. intros w. by apply grows_same. Qed.

(** *** The filesystem calls *)

Lemma traced_mkdir P p : (∀ c, P (EvMkdir c)) → traced P (Fs.mkdir p).
Proof.
  intros HP w. unfold Fs.mkdir.
  destruct (_ || _); [apply grows_refl|].
  destruct (Fs.check_parent _ w); [apply grows_refl|].
  exists [EvMkdir (Path.canon p)]. split_and!; try done.
  - by apply Forall_singleton.
  - simpl. set_solver.
Qed.

Lemma traced_readdir P p : traced P (Fs.readdir p).
Proof. intros w. unfold Fs.readdir. destruct (Fs.is_dir _ w); apply grows_refl. Qed.

Lemma traced_writeStream_wx P dest body :
  P (EvDownload dest) → traced P (Fs.writeStream_wx dest body).
Proof.
  intros HP w. unfold Fs.writeStream_wx.
  destruct (Fs.existsSync dest w); [apply grows_refl|].
  destruct (Fs.check_target dest w); [apply grows_refl|].
  by apply grows_emit_file.
Qed.

Lemma drop_files_keeps dest out (f : gmap string string) k :
  is_Some (f !! k) → is_Some (Fs.drop_files dest out f !! k).
Proof.
  intros Hk. induction out as [|[n c] out IH]; [done|]. simpl.
  destruct (decide ((Path.canon dest +:+ "/" +:+ n) = k)) as [->|Hne].
  - rewrite lookup_insert_eq. eauto.
  - by rewrite lookup_insert_ne.
Qed.

(** *** The stages of the script *)

Section Stages.

Variable E : env.
Variable C : config.

Lemma traced_getIconHash P app_id : traced P (getIconHash E app_id).
Proof.
  intros w. unfold getIconHash.
  destruct (listen _ _ _) as [[| |] li]; by apply grows_same.
Qed.

Lemma traced_downloadIcon P app_id :
  (∀ d, P (EvDownload d)) → traced P (downloadIcon E C app_id).
Proof.
  intros HP. unfold downloadIcon.
  apply traced_bind; [apply traced_getIconHash|].
  intros [[|c hash]|]; try apply traced_ret.
  apply traced_bind; [apply traced_console_log|]. intros _.
  destruct (fetch E _).
  - apply traced_bind; [by apply traced_writeStream_wx|].
    intros _. apply traced_ret.
  - apply traced_bind; [apply traced_console_error|].
    intros _. apply traced_ret.
  - apply traced_throw.
  - intros w. apply grows_refl.
Qed.

Lemma traced_exec_icotool P src dest :
  (∀ d l, P (EvExtract d l)) → traced P (exec_icotool E src dest).
Proof.
  intros HP w. unfold exec_icotool.
  destruct (icotool E _).
  - by apply grows_same.
  - exists [EvExtract dest (map fst out)]. split_and!; try done.
    + by apply Forall_singleton.
    + simpl. intros k. apply drop_files_keeps.
  - apply grows_refl.
Qed.

Lemma traced_extractIco P src dest :
  (∀ c, P (EvMkdir c)) → (∀ d l, P (EvExtract d l)) →
  traced P (extractIco E src dest).
Proof.
  intros HP1 HP2. unfold extractIco.
  apply traced_bind; [by apply traced_mkdir|]. intros _.
  apply traced_bind; [by apply traced_exec_icotool|]. intros _.
  apply traced_bind; [apply traced_readdir|]. intros l.
  apply traced_ret.
Qed.

Lemma traced_place P app_id hd v s :
  (∀ a b, P (EvCopy a b)) → traced P (place C app_id hd v s).
Proof.
  intros HP w.
  destruct (place_turn C app_id hd v s w)
    as [w1 Hf Hd He _ | | | content _ _ _ _ _].
  - by apply grows_same.
  - apply grows_refl.
  - apply grows_refl.
  - by apply grows_emit_file.
Qed.

Lemma traced_place_all P app_id hd sizes :
  (∀ a b, P (EvCopy a b)) → ∀ s, traced P (place_all C app_id hd sizes s).
Proof.
  intros HP. induction sizes as [|[v|] rest IH]; intros s.
  - apply traced_ret.
  - cbn [place_all]. apply traced_bind; [by apply traced_place|done].
  - apply traced_throw.
Qed.

Lemma traced_install_sizes P app_id sizes :
  (∀ a b, P (EvCopy a b)) → traced P (install_sizes C app_id sizes).
Proof.
  intros HP. unfold install_sizes.
  destruct (bitdepths sizes); [by apply traced_place_all|apply traced_throw].
Qed.

Lemma traced_installIcon app_id : traced unwritten (installIcon E C app_id).
Proof.
  unfold installIcon.
  apply traced_bind; [by apply traced_downloadIcon|]. intros ico.
  apply traced_bind; [by apply traced_extractIco|]. intros sizes.
  by apply traced_install_sizes.
Qed.

End Stages.

(** ** One entry, and the batch *)

Lemma shortcuts_unwritten l : Forall unwritten l → shortcuts l = [].
Proof.
  induction 1 as [|e l He _ IH]; [done|].
  unfold unwritten in He.
  destruct e; simpl in He; try discriminate; exact IH.
Qed.

Section Entries.

Variable E : env.
Variable C : config.





Lemma readFile_world p w : (Fs.readFile p w).2 = w.
Proof.
  unfold Fs.readFile. destruct (Fs.is_dir p w); [done|].
  by destruct (files w !! Path.canon p).
Qed.


End Entries.

Lemma append_assoc (a b c : string) : (a +:+ b) +:+ c = a +:+ (b +:+ c).
Proof.
  induction a as [|x a IH]; [done|].
  change (String x ((a +:+ b) +:+ c) = String x (a +:+ (b +:+ c))).
  by rewrite IH.
Qed.


(** ** The claims on the stages and on the batch *)


(** C3. With an archive that icotool rejects (non-zero exit), [extractIco]
    logs the failure and then throws the error of [exec] to its caller: the
    promise is rejected, and the line that would return the empty list is
    never reached. *)
Theorem extractIco_nonzero_exit_throws :
  (extractIco Demo.E_corrupt (Some Demo.ico) "/tmp/sdfg-AbCdEf/440/"
     Demo.downloaded).1
  = Throws (ExecError "icotool: not an icon file")
  ∧ console (extractIco Demo.E_corrupt (Some Demo.ico) "/tmp/sdfg-AbCdEf/440/"
               Demo.downloaded).2
    = [Err "Could not extract icon sizes! icotool: not an icon file"].
Proof. split; vm_compute; reflexivity. Qed.

(** Supporting fact for C4: while no chunk matches and every close carries
    status 0 or no status, the promise stays as it was. *)
Lemma listen_clean_exit evs : ∀ st li,
  Forall (fun ev => match ev with
                    | Data output => ∀ i, (Regex.exec_g steamcmdRegex i output).1 = None
                    | Close code => code = None ∨ code = Some 0%nat
                    end) evs →
  (listen evs st li).1 = st.
Proof.
  induction evs as [|[output|code] evs IH]; intros st li Hall; [done|..];
    apply Forall_cons in Hall as [Hev Hall]; simpl.
  - specialize (Hev li).
    destruct (Regex.exec_g steamcmdRegex li output) as [[c|] li']; [done|].
    by apply IH.
  - destruct Hev as [->| ->]; by apply IH.
Qed.

(** C4. When steamcmd prints nothing that matches and closes with status 0,
    the promise of [getIconHash] is never settled: the function is left
    pending, it does not resolve to null.  With a non-zero status it does. *)
Theorem getIconHash_clean_exit_pending :
  steamcmd Demo.E "570" = [Data "No app info
"; Close (Some 0%nat)]
  ∧ (getIconHash Demo.E "570" Demo.downloaded).1 = Pending
  ∧ (getIconHash Demo.E "10" Demo.downloaded).1 = Returns None.
Proof. by vm_compute. Qed.

(** C5. A file name without the size pattern is not dropped by [extractIco]:
    it stays in the returned list as null, and the selection of [installIcon]
    then throws on it before looking at any candidate. *)
Theorem extractIco_keeps_unparsed_names :
  (extractIco Demo.E_notes (Some Demo.ico) "/tmp/sdfg-AbCdEf/440/" Demo.downloaded).1
  = Returns [None;
             Some (Candidate "/tmp/sdfg-AbCdEf/440/deadbeef_1_64x64x32.png"
                             "64" "64" "32")]
  ∧ ∀ C app_id w path,
      install_sizes C app_id [None; Some (Candidate path "64" "64" "32")] w
      = (Throws null_deref, w).
Proof. split; [by vm_compute|done]. Qed.






(** * Further properties of the script *)

(** ** What the two patterns capture *)

Lemma rep_inv p k : ∀ s prev pos taken r,
  Regex.rep p k prev s pos taken = Some r →
  ∃ ds s' prev',
    s = ds ++ s' ∧ forallb p ds = true
    ∧ k prev' s' (pos + length ds)%nat (rev ds ++ taken) = Some r.
Proof.
  induction s as [|c s IH]; intros prev pos taken r Hr; simpl in Hr.
  - exists [], [], prev. by rewrite Nat.add_0_r.
  - destruct (p c) eqn:Hc.
    + destruct (Regex.rep p k (Some c) s (S pos) (c :: taken)) as [r'|] eqn:Hin.
      * injection Hr as ->.
        destruct (IH _ _ _ _ Hin) as (ds & s' & prev' & -> & Hds & Hk).
        exists (c :: ds), s', prev'. simpl. rewrite Hc, Hds.
        split_and!; try done.
        by rewrite <- app_assoc, <- Nat.add_succ_comm.
      * exists [], (c :: s), prev. by rewrite Nat.add_0_r.
    + exists [], (c :: s), prev. by rewrite Nat.add_0_r.
Qed.

Lemma match_atoms_captures r : ∀ prev s pos caps caps' e,
  Regex.match_atoms r prev s pos caps = Some (caps', e) →
  ∃ new, caps' = caps ++ new ∧ Forall2 capture_ok (captures_of r) new.
Proof.
  induction r as [|a r IH]; intros prev s pos caps caps' e H; simpl in H.
  - injection H as <- <-. exists []. by rewrite app_nil_r.
  - destruct a as [c|p min|p min| |].
    + destruct s as [|c' s]; [done|]. destruct (Ascii.eqb c c'); [|done].
      by apply IH in H.
    + apply rep_inv in H as (ds & s' & prev' & _ & _ & H).
      destruct (min <=? _)%nat; [|done]. by apply IH in H.
    + apply rep_inv in H as (ds & s' & prev' & _ & Hds & H).
      destruct (min <=? _)%nat eqn:Hmin; [|done].
      apply IH in H as (new & -> & Hnew).
      exists (Str.of_chars (rev (rev ds ++ [])) :: new).
      rewrite <- app_assoc. split; [done|]. simpl.
      constructor; [|done]. unfold capture_ok, Str.chars, Str.of_chars. simpl.
      rewrite list_ascii_of_string_of_list_ascii, app_nil_r, rev_involutive.
      split; [done|]. apply Nat.leb_le in Hmin.
      by rewrite app_nil_r, length_rev in Hmin.
    + destruct prev as [c|]; [destruct (Regex.is_line_terminator c); [|done]|];
        by apply IH in H.
    + destruct s as [|c s]; [|destruct (Regex.is_line_terminator c); [|done]];
        by apply IH in H.
Qed.

Lemma search_captures r : ∀ s prev pos caps e,
  Regex.search r prev s pos = Some (caps, e) →
  Forall2 capture_ok (captures_of r) caps.
Proof.
  induction s as [|c s IH]; intros prev pos caps e H; simpl in H.
  - destruct (Regex.match_atoms r prev [] pos []) as [[c' e']|] eqn:Hm; [|done].
    injection H as -> ->. by apply match_atoms_captures in Hm as (new & -> & ?).
  - destruct (Regex.match_atoms r prev (c :: s) pos []) as [[c' e']|] eqn:Hm.
    + injection H as -> ->. by apply match_atoms_captures in Hm as (new & -> & ?).
    + by apply IH in H.
Qed.
Lemma exec_g_capture li output caps li' :
  Regex.exec_g steamcmdRegex li output = (Some caps, li') →
  ∃ hash, caps = [hash] ∧ hash ≠ EmptyString
          ∧ forallb Regex.not_quote (Str.chars hash) = true.
Proof.
  unfold Regex.exec_g. destruct (_ <? _)%nat; [done|].
  destruct (Regex.search _ _ _ _) as [[c e]|] eqn:Hs; [|done].
  intros [= -> ->]. apply search_captures in Hs.
  change (captures_of steamcmdRegex) with [(Regex.not_quote, 1%nat)] in Hs.
  apply Forall2_cons_inv_l in Hs as (hash & rest & [Hp Hn] & ->%Forall2_nil_inv_l & ->).
  exists hash. split_and!; try done.
  intros ->. simpl in Hn. lia.
Qed.

(** ** The lookup of the hash *)

Lemma listen_good evs : ∀ st li, good_hash st → good_hash (listen evs st li).1.
Proof.
  induction evs as [|[output|code] evs IH]; intros st li Hst; [done|..]; simpl.
  - destruct (Regex.exec_g steamcmdRegex li output) as [[caps|] li'] eqn:Hx.
    + apply IH. destruct st; try done.
      apply exec_g_capture in Hx as (hash & -> & ? & ?). done.
    + by apply IH.
  - destruct code as [[|n]|]; apply IH; try done. by destruct st.
Qed.

Lemma listen_settled evs : ∀ st li, st ≠ Unsettled → (listen evs st li).1 = st.
Proof.
  induction evs as [|[output|code] evs IH]; intros st li Hst; [done|..]; simpl.
  - destruct (Regex.exec_g steamcmdRegex li output) as [[caps|] li'].
    + rewrite IH; by destruct st.
    + by apply IH.
  - destruct code as [[|n]|]; try by apply IH.
    rewrite IH; by destruct st.
Qed.

Lemma listen_unsettled evs : ∀ st li,
  (listen evs st li).1 = Unsettled →
  st = Unsettled ∧ ∀ n, Close (Some (S n)) ∉ evs.
Proof.
  induction evs as [|[output|code] evs IH]; intros st li H; simpl in H.
  - split; [done|]. intros n Hin. by apply elem_of_nil in Hin.
  - destruct (Regex.exec_g steamcmdRegex li output) as [[caps|] li'].
    + apply IH in H as [H _]. by destruct st.
    + apply IH in H as [-> Hn]. split; [done|].
      intros n [?|?]%elem_of_cons; [done|by eapply Hn].
  - destruct code as [[|n]|].
    + apply IH in H as [-> Hn]. split; [done|].
      intros n [[=]|?]%elem_of_cons. by eapply Hn.
    + apply IH in H as [H _]. by destruct st.
    + apply IH in H as [-> Hn]. split; [done|].
      intros n [[=]|?]%elem_of_cons. by eapply Hn.
Qed.

Lemma listen_rejected evs : ∀ st li code,
  (listen evs st li).1 = Rejected code →
  st = Rejected code ∨ (st = Unsettled ∧ ∃ n, Close (Some (S n)) ∈ evs).
Proof.
  induction evs as [|[output|c] evs IH]; intros st li code H; simpl in H.
  - by left.
  - destruct (Regex.exec_g steamcmdRegex li output) as [[caps|] li'].
    + apply IH in H as [H|[H _]]; destruct st; try done. by left.
    + apply IH in H as [H|[-> (n & Hn)]]; [by left|].
      right. split; [done|]. exists n. by apply elem_of_cons; right.
  - destruct c as [[|n]|].
    + apply IH in H as [H|[-> (m & Hm)]]; [by left|].
      right. split; [done|]. exists m. by apply elem_of_cons; right.
    + apply IH in H as [H|[H _]].
      * destruct st; try done; [|by left].
        right. split; [done|]. exists n. by apply elem_of_cons; left.
      * by destruct st.
    + apply IH in H as [H|[-> (m & Hm)]]; [by left|].
      right. split; [done|]. exists m. by apply elem_of_cons; right.
Qed.

(** X1. [getIconHash] never throws and never touches files, directories or
    events.  It returns a hash only when it is a non-empty text without a
    quote, logged on the console; it returns null only when steamcmd
    closed with a non-zero status, after the warning; in every other case
    (no such close) its promise stays pending and nothing is logged. *)
Theorem getIconHash_outcome E app_id w :
  let r := getIconHash E app_id w in
  files r.2 = files w ∧ dirs r.2 = dirs w ∧ events r.2 = events w
  ∧ match r.1 with
    | Returns (Some hash) =>
        hash ≠ EmptyString
        ∧ forallb Regex.not_quote (Str.chars hash) = true
        ∧ console r.2 = Out hash :: console w
    | Returns None =>
        (∃ n, Close (Some (S n)) ∈ steamcmd E app_id)
        ∧ console r.2 = Err "Could not use SteamCMD to get icon hash!" :: console w
    | Pending =>
        (∀ n, Close (Some (S n)) ∉ steamcmd E app_id)
        ∧ console r.2 = console w
    | _ => False
    end.
Proof.
  unfold getIconHash.
  pose proof (listen_good (steamcmd E app_id) Unsettled (lastIndex w) I) as Hg.
  pose proof (listen_unsettled (steamcmd E app_id) Unsettled (lastIndex w)) as Hu.
  pose proof (listen_rejected (steamcmd E app_id) Unsettled (lastIndex w)) as Hr.
  destruct (listen _ _ _) as [[|hash|code] li]; simpl in *.
  - split_and!; try done. by apply Hu.
  - destruct Hg. by split_and!.
  - split_and!; try done.
    destruct (Hr code eq_refl) as [?|[_ ?]]; done.
Qed.
Lemma listen_app a : ∀ b st li,
  listen (a ++ b) st li = listen b (listen a st li).1 (listen a st li).2.
Proof.
  induction a as [|[output|code] a IH]; intros b st li; [done|..]; simpl.
  - destruct (Regex.exec_g steamcmdRegex li output) as [[caps|] li']; apply IH.
  - destruct code as [[|n]|]; apply IH.
Qed.

(** X2. The first event that settles the promise of [getIconHash] decides
    the result, whatever steamcmd does afterwards: a hash that was matched
    is returned even when the process then closes with a failure, and a
    failure gives null even when a hash is printed later. *)
Theorem getIconHash_first_settlement E app_id w pre post st :
  steamcmd E app_id = pre ++ post →
  (listen pre Unsettled (lastIndex w)).1 = st →
  st ≠ Unsettled →
  (getIconHash E app_id w).1
  = match st with
    | Resolved hash => Returns (Some hash)
    | _ => Returns None
    end.
Proof.
  intros Hev Hpre Hst. unfold getIconHash. rewrite Hev, listen_app.
  destruct (listen pre Unsettled (lastIndex w)) as [st0 li]. simpl in Hpre.
  subst st0. cbn [fst snd].
  pose proof (listen_settled post st li Hst) as Hs.
  destruct (listen post st li) as [st' li']. simpl in Hs. subst st'.
  by destruct st.
Qed.

Lemma getIconHash_first_settlement_witness :
  (getIconHash Cases.E_late "440" Demo.w_portal).1 = Returns (Some "deadbeef").
Proof.
  assert (P0 : steamcmd Cases.E_late "440"
               = [Data (Demo.clienticon_line "deadbeef")] ++ [Close (Some 1%nat)])
    by (vm_compute; reflexivity).
  assert (P1 : (listen [Data (Demo.clienticon_line "deadbeef")] Unsettled
                  (lastIndex Demo.w_portal)).1 = Resolved "deadbeef")
    by (vm_compute; reflexivity).
  assert (P2 : Resolved "deadbeef" ≠ Unsettled) by discriminate.
  exact (getIconHash_first_settlement Cases.E_late "440" Demo.w_portal
           _ _ (Resolved "deadbeef") P0 P1 P2).
Defined.

(** A chunk shorter than the position the shared pattern was left at is
    not searched: the position is reset and the chunk is lost. *)
Lemma getIconHash_stale_lastIndex E app_id w output code :
  steamcmd E app_id = [Data output; Close code] →
  (length (Str.chars output) < lastIndex w)%nat →
  code = None ∨ code = Some 0%nat →
  (getIconHash E app_id w).1 = Pending
  ∧ lastIndex (getIconHash E app_id w).2 = 0%nat.
Proof.
  intros Hev Hlt Hcode. unfold getIconHash. rewrite Hev. simpl.
  unfold Regex.exec_g. apply Nat.ltb_lt in Hlt. rewrite Hlt.
  by destruct Hcode as [-> | ->].
Qed.
(** X3. The pattern of [getIconHash] is one object with the g flag, shared
    by all lookups: the position a match leaves behind is where the next
    search starts.  A lookup whose only chunk would give its hash on its
    own stays pending when it follows a lookup that matched further into a
    longer chunk, steamcmd closing cleanly. *)
Theorem getIconHash_shared_lastIndex E a b w out_a hash_a e out_b hash_b e_b code :
  steamcmd E a = [Data out_a; Close (Some 0%nat)] →
  Regex.exec_g steamcmdRegex (lastIndex w) out_a = (Some [hash_a], e) →
  steamcmd E b = [Data out_b; Close code] →
  Regex.exec_g steamcmdRegex (lastIndex w) out_b = (Some [hash_b], e_b) →
  (length (Str.chars out_b) < e)%nat →
  code = None ∨ code = Some 0%nat →
  (getIconHash E b w).1 = Returns (Some hash_b)
  ∧ (getIconHash E a w).1 = Returns (Some hash_a)
  ∧ (getIconHash E b (getIconHash E a w).2).1 = Pending.
Proof.
  intros Ha Hxa Hb Hxb Hlt Hcode.
  assert (H1 : getIconHash E a w
               = (Returns (Some hash_a), print (Out hash_a) (with_lastIndex e w))).
  { unfold getIconHash. rewrite Ha. simpl. by rewrite Hxa. }
  rewrite H1. split_and!; try done.
  - unfold getIconHash. rewrite Hb. simpl. rewrite Hxb.
    by destruct Hcode as [-> | ->].
  - by apply (getIconHash_stale_lastIndex E b _ out_b code).
Qed.

Lemma getIconHash_shared_lastIndex_witness :
  (getIconHash Cases.E_pair "620" Demo.w_portal).1 = Returns (Some "cafe")
  ∧ (getIconHash Cases.E_pair "440" Demo.w_portal).1 = Returns (Some "deadbeef")
  ∧ (getIconHash Cases.E_pair "620"
       (getIconHash Cases.E_pair "440" Demo.w_portal).2).1 = Pending.
Proof.
  assert (P0 : steamcmd Cases.E_pair "440"
               = [Data (Cases.banner +:+ Demo.clienticon_line "deadbeef");
                  Close (Some 0%nat)])
    by (vm_compute; reflexivity).
  assert (P1 : Regex.exec_g steamcmdRegex (lastIndex Demo.w_portal)
                 (Cases.banner +:+ Demo.clienticon_line "deadbeef")
               = (Some ["deadbeef"], 70%nat))
    by (vm_compute; reflexivity).
  assert (P2 : steamcmd Cases.E_pair "620"
               = [Data (Demo.clienticon_line "cafe"); Close (Some 0%nat)])
    by (vm_compute; reflexivity).
  assert (P3 : Regex.exec_g steamcmdRegex (lastIndex Demo.w_portal)
                 (Demo.clienticon_line "cafe")
               = (Some ["cafe"], 23%nat))
    by (vm_compute; reflexivity).
  assert (P4 : (length (Str.chars (Demo.clienticon_line "cafe")) < 70)%nat)
    by (apply Nat.ltb_lt; vm_compute; reflexivity).
  exact (getIconHash_shared_lastIndex Cases.E_pair "440" "620" Demo.w_portal
           _ "deadbeef" 70%nat _ "cafe" 23%nat (Some 0%nat)
           P0 P1 P2 P3 P4 (or_intror eq_refl)).
Defined.

(** ** The download *)



(** ** The unpacking *)

Lemma parse_size_numeric dest name v :
  parse_size dest name = Some v →
  path v = Path.join [dest; name]
  ∧ forallb Regex.is_digit (Str.chars (width v)) = true
  ∧ forallb Regex.is_digit (Str.chars (height v)) = true
  ∧ forallb Regex.is_digit (Str.chars (bitdepth v)) = true.
Proof.
  unfold parse_size, Regex.exec.
  destruct (Regex.search _ _ _ _) as [[caps e]|] eqn:Hs; [|done].
  apply search_captures in Hs.
  change (captures_of steamIconRegex)
    with [(Regex.is_digit, 0%nat); (Regex.is_digit, 0%nat); (Regex.is_digit, 0%nat)] in Hs.
  apply Forall2_cons_inv_l in Hs as (cw & r1 & [Hw _] & Hs & ->).
  apply Forall2_cons_inv_l in Hs as (ch & r2 & [Hh _] & Hs & ->).
  apply Forall2_cons_inv_l in Hs as (cb & r3 & [Hb _] & ->%Forall2_nil_inv_l & ->).
  simpl. by intros [= <-].
Qed.

Lemma to_double_number n : to_double n ≠ NaN ∧ to_double n ≠ NegInfinity.
Proof. unfold to_double. by destruct (_ <=? _)%N. Qed.

Lemma ToNumber_digits s :
  forallb Regex.is_digit (Str.chars s) = true →
  ToNumber s ≠ NaN ∧ ToNumber s ≠ NegInfinity.
Proof. intros H. unfold ToNumber. rewrite H. apply to_double_number. Qed.

(** From 2^53 on neighbouring depths are the same number. *)
Lemma ToNumber_rounds :
  ToNumber "9007199254740993" = ToNumber "9007199254740992"
  ∧ ToNumber "9007199254740992" = Num 9007199254740992
  ∧ ToNumber "9007199254740994" = Num 9007199254740994
  ∧ ToNumber "9007199254740995" = Num 9007199254740996.
Proof. by vm_compute. Qed.

(** A run of digits beyond the range of doubles is [Infinity]. *)
Lemma ToNumber_overflow :
  ToNumber (String "1" (string_of_list_ascii (repeat "0"%char 309))) = Infinity
  ∧ ToNumber (String "1" (string_of_list_ascii (repeat "0"%char 308)))
    ≠ Infinity.
Proof. split; [by vm_compute|]. vm_compute. discriminate. Qed.

Lemma readdir_world p w : (Fs.readdir p w).2 = w.
Proof. unfold Fs.readdir. by destruct (Fs.is_dir _ w). Qed.

Lemma extractIco_returns E src dest w sizes w' :
  extractIco E src dest w = (Returns sizes, w') →
  sizes = map (parse_size dest) (entries_of dest w').
Proof.
  unfold extractIco, bind at 1.
  destruct (Fs.mkdir dest w) as [[[]|e| |] w1]; try done.
  unfold bind at 1. destruct (exec_icotool E src dest w1) as [[[]|e| |] w2]; try done.
  unfold bind, ret, entries_of.
  pose proof (readdir_world dest w2) as Hw.
  destruct (Fs.readdir dest w2) as [[names|e| |] w3] eqn:Hrd; try done.
  simpl in Hw. subst w3. intros [= <- <-]. by rewrite Hrd.
Qed.

Lemma extractIco_parsed E src dest w sizes v :
  (extractIco E src dest w).1 = Returns sizes →
  Some v ∈ sizes →
  ∃ name, name ∈ entries_of dest (extractIco E src dest w).2
          ∧ parse_size dest name = Some v
          ∧ length sizes = length (entries_of dest (extractIco E src dest w).2).
Proof.
  destruct (extractIco E src dest w) as [o w'] eqn:Hx. simpl.
  intros ->. apply extractIco_returns in Hx as ->.
  intros (name & Hv & Hin)%list_elem_of_fmap.
  exists name. by rewrite length_map.
Qed.

(** X5. What [extractIco] returns has one entry for each name of the
    destination directory, in the order of the listing.  An entry that is
    not null was parsed from one of these names, and its width, height and
    bit depth are runs of decimal digits (possibly empty), so that the bit
    depth is a number for [Math.max], never NaN: a double, or [Infinity]
    for a run of digits beyond the range of doubles. *)
Theorem extractIco_candidates_numeric E src dest w sizes v :
  (extractIco E src dest w).1 = Returns sizes →
  Some v ∈ sizes →
  (∃ name, name ∈ entries_of dest (extractIco E src dest w).2
           ∧ parse_size dest name = Some v)
  ∧ length sizes = length (entries_of dest (extractIco E src dest w).2)
  ∧ forallb Regex.is_digit (Str.chars (width v)) = true
  ∧ forallb Regex.is_digit (Str.chars (height v)) = true
  ∧ forallb Regex.is_digit (Str.chars (bitdepth v)) = true
  ∧ ((∃ n, ToNumber (bitdepth v) = Num n) ∨ ToNumber (bitdepth v) = Infinity).
Proof.
  intros Hx Hv.
  destruct (extractIco_parsed E src dest w sizes v Hx Hv) as (name & Hin & Hp & Hl).
  destruct (parse_size_numeric _ _ _ Hp) as (_ & Hw & Hh & Hb).
  split_and!; try done; [by exists name|].
  destruct (ToNumber_digits _ Hb) as [Hnan Hneg].
  destruct (ToNumber (bitdepth v)) as [|n| |]; try done; [left; by exists n|by right].
Qed.

Lemma extractIco_candidates_numeric_witness :
  (∃ name,
      name ∈ entries_of Cases.dest440
               (extractIco Demo.E (Some Demo.ico) Cases.dest440 Demo.downloaded).2
      ∧ parse_size Cases.dest440 name = Some Cases.d64)
  ∧ ((∃ n, ToNumber (bitdepth Cases.d64) = Num n)
     ∨ ToNumber (bitdepth Cases.d64) = Infinity).
Proof.
  assert (P0 : (extractIco Demo.E (Some Demo.ico) Cases.dest440 Demo.downloaded).1
               = Returns Cases.unpacked)
    by (vm_compute; reflexivity).
  assert (P1 : Some Cases.d64 ∈ Cases.unpacked)
    by (apply list_elem_of_further, list_elem_of_here).
  exact (let H := extractIco_candidates_numeric Demo.E (Some Demo.ico)
                    Cases.dest440 Demo.downloaded Cases.unpacked Cases.d64 P0 P1 in
         conj (proj1 H) (proj2 (proj2 (proj2 (proj2 (proj2 H)))))).
Defined.

(** ** File names as icotool writes them *)

Lemma rep_greedy p k : ∀ ds prev pos taken rest r,
  forallb p ds = true → stops p rest →
  (∀ prev', k prev' rest (pos + length ds)%nat (rev ds ++ taken) = Some r) →
  Regex.rep p k prev (ds ++ rest) pos taken = Some r.
Proof.
  induction ds as [|d ds IH]; intros prev pos taken rest r Hds Hrest Hk.
  - simpl. specialize (Hk prev). rewrite Nat.add_0_r in Hk. simpl in Hk.
    destruct rest as [|c rest]; [done|]. simpl in *. by rewrite Hrest.
  - simpl in *. apply andb_true_iff in Hds as [Hd Hds]. rewrite Hd.
    rewrite (IH (Some d) (S pos) (d :: taken) rest r); try done.
    intros prev'. specialize (Hk prev').
    by rewrite <- app_assoc, <- Nat.add_succ_comm in Hk.
Qed.

Lemma rep_fail p k : ∀ s prev pos taken,
  (∀ ds s' prev', s = ds ++ s' → forallb p ds = true →
     k prev' s' (pos + length ds)%nat (rev ds ++ taken) = None) →
  Regex.rep p k prev s pos taken = None.
Proof.
  induction s as [|c s IH]; intros prev pos taken Hk.
  - simpl. specialize (Hk [] [] prev eq_refl eq_refl).
    by rewrite Nat.add_0_r in Hk.
  - simpl. assert (H0 : k prev (c :: s) pos taken = None).
    { specialize (Hk [] (c :: s) prev eq_refl eq_refl).
      by rewrite Nat.add_0_r in Hk. }
    destruct (p c) eqn:Hc; [|done].
    rewrite IH; [done|]. intros ds s' prev' -> Hds.
    specialize (Hk (c :: ds) s' prev' eq_refl). simpl in Hk.
    rewrite Hc, Hds in Hk. specialize (Hk eq_refl).
    by rewrite <- app_assoc, <- Nat.add_succ_comm in Hk.
Qed.

(** A run of digits inside a text without x that ends on a non-digit stops
    before a character that is not x. *)
Lemma digits_stop_inside (pre tail ds s' : list ascii) :
  pre ≠ [] → forallb (fun c => negb (is_x c)) pre = true →
  (∀ c, last pre = Some c → Regex.is_digit c = false) →
  pre ++ tail = ds ++ s' → forallb Regex.is_digit ds = true →
  ∃ c s'', s' = c :: s'' ∧ is_x c = false.
Proof.
  revert ds. induction pre as [|a pre IH]; intros ds Hne Hx Hlast Heq Hds; [done|].
  simpl in Hx. apply andb_true_iff in Hx as [Ha Hx].
  destruct ds as [|d ds].
  - simpl in Heq. subst s'. exists a, (pre ++ tail).
    split; [done|by apply negb_true_iff].
  - simpl in Heq, Hds. injection Heq as <- Heq.
    apply andb_true_iff in Hds as [Hd Hds].
    destruct pre as [|b pre].
    + specialize (Hlast a eq_refl). congruence.
    + by apply (IH ds).
Qed.

Section RoundTrip.

Variables W H D : list ascii.
Variable suf : list ascii.
Hypothesis HW : forallb Regex.is_digit W = true.
Hypothesis HH : forallb Regex.is_digit H = true.
Hypothesis HD : forallb Regex.is_digit D = true.
Hypothesis Hsuf : stops Regex.is_digit suf.

Lemma match_at_size prev pos :
  ∃ e, Regex.match_atoms steamIconRegex prev
         (W ++ "x"%char :: H ++ "x"%char :: D ++ suf) pos []
       = Some ([Str.of_chars W; Str.of_chars H; Str.of_chars D], e).
Proof.
  eexists. unfold steamIconRegex. cbn [Regex.match_atoms].
  apply rep_greedy; [done|done|]. intros p1. cbn [Nat.leb].
  cbn [Regex.match_atoms]. cbn [Ascii.eqb Bool.eqb].
  apply rep_greedy; [done|done|]. intros p2. cbn [Nat.leb].
  cbn [Regex.match_atoms]. cbn [Ascii.eqb Bool.eqb].
  apply rep_greedy; [done|done|]. intros p3. cbn [Nat.leb].
  cbn [Regex.match_atoms]. rewrite !app_nil_r, !rev_involutive. reflexivity.
Qed.

Lemma no_match_before pre tail prev pos :
  pre ≠ [] → forallb (fun c => negb (is_x c)) pre = true →
  (∀ c, last pre = Some c → Regex.is_digit c = false) →
  Regex.match_atoms steamIconRegex prev (pre ++ tail) pos [] = None.
Proof.
  intros Hne Hx Hlast. unfold steamIconRegex. cbn [Regex.match_atoms].
  apply rep_fail. intros ds s' prev' Heq Hds. cbn [Nat.leb].
  destruct (digits_stop_inside pre tail ds s' Hne Hx Hlast Heq Hds)
    as (c & s'' & -> & Hc).
  cbn [Regex.match_atoms]. unfold is_x in Hc. by rewrite Ascii.eqb_sym, Hc.
Qed.

Lemma search_size pre : ∀ prev pos,
  forallb (fun c => negb (is_x c)) pre = true →
  (∀ c, last pre = Some c → Regex.is_digit c = false) →
  ∃ e, Regex.search steamIconRegex prev
         (pre ++ W ++ "x"%char :: H ++ "x"%char :: D ++ suf) pos
       = Some ([Str.of_chars W; Str.of_chars H; Str.of_chars D], e).
Proof.
  induction pre as [|a pre IH]; intros prev pos Hx Hlast.
  - cbn [app]. destruct (match_at_size prev pos) as [e He]. exists e.
    destruct (W ++ _) as [|c l] eqn:Hs; cbn [Regex.search]; by rewrite He.
  - assert (Hn := no_match_before (a :: pre)
                      (W ++ "x"%char :: H ++ "x"%char :: D ++ suf) prev pos
                      ltac:(done) Hx Hlast).
    cbn [app] in Hn |- *. cbn [Regex.search]. rewrite Hn.
    simpl in Hx. apply andb_true_iff in Hx as [_ Hx].
    apply IH; [done|]. intros c Hc. apply Hlast.
    destruct pre; [done|]. exact Hc.
Qed.

End RoundTrip.
Lemma chars_app a b : Str.chars (a +:+ b) = Str.chars a ++ Str.chars b.
Proof.
  induction a as [|c a IH]; [done|].
  change (Str.chars (String c (a +:+ b)) = c :: (Str.chars a ++ Str.chars b)).
  unfold Str.chars in *. simpl. by rewrite IH.
Qed.

Lemma of_chars_chars s : Str.of_chars (Str.chars s) = s.
Proof. apply string_of_list_ascii_of_string. Qed.

(** X6. A file name as icotool writes it is parsed back into its size: for
    a name made of a prefix without the letter x that does not end on a
    digit, then width x height x depth in decimal digits, then a suffix
    that does not start with a digit, the candidate has the path of the
    file in the destination directory and exactly these three texts. *)
Theorem parse_size_icotool_name dest pre W H D suf :
  forallb Regex.is_digit (Str.chars W) = true →
  forallb Regex.is_digit (Str.chars H) = true →
  forallb Regex.is_digit (Str.chars D) = true →
  forallb (fun c => negb (is_x c)) (Str.chars pre) = true →
  (∀ c, last (Str.chars pre) = Some c → Regex.is_digit c = false) →
  stops Regex.is_digit (Str.chars suf) →
  parse_size dest (pre +:+ W +:+ "x" +:+ H +:+ "x" +:+ D +:+ suf)
  = Some (Candidate
            (Path.join [dest; pre +:+ W +:+ "x" +:+ H +:+ "x" +:+ D +:+ suf])
            W H D).
Proof.
  intros HW HH HD Hpre Hlast Hsuf. unfold parse_size, Regex.exec.
  rewrite !chars_app. change (Str.chars "x") with ["x"%char]. cbn [app].
  destruct (search_size _ _ _ _ HW HH HD Hsuf (Str.chars pre) None 0%nat Hpre Hlast)
    as [e ->].
  simpl. by rewrite !of_chars_chars.
Qed.

Lemma parse_size_icotool_name_witness :
  parse_size Cases.dest440
    ("deadbeef_1_" +:+ "64" +:+ "x" +:+ "64" +:+ "x" +:+ "32" +:+ ".png")
  = Some (Candidate
            (Path.join [Cases.dest440;
                        "deadbeef_1_" +:+ "64" +:+ "x" +:+ "64" +:+ "x" +:+ "32"
                        +:+ ".png"])
            "64" "64" "32").
Proof.
  apply parse_size_icotool_name; try (vm_compute; reflexivity).
  intros c. vm_compute. by intros [= <-].
Defined.

(** ** The highest bit depth *)

Lemma max2_choice a b : a ≠ NaN → b ≠ NaN → max2 a b = a ∨ max2 a b = b.
Proof.
  destruct a as [|x| |], b as [|y| |]; simpl; intros Ha Hb; try done; eauto.
  destruct (N.max_spec x y) as [[_ ->]|[_ ->]]; eauto.
Qed.

Lemma fold_max2_in l : ∀ a,
  a ≠ NaN → Forall (fun x => x ≠ NaN) l → fold_left max2 l a ∈ a :: l.
Proof.
  induction l as [|x l IH]; intros a Ha Hl; simpl.
  - apply list_elem_of_here.
  - apply Forall_cons in Hl as [Hx Hl].
    destruct (max2_choice a x Ha Hx) as [-> | ->].
    + specialize (IH a Ha Hl). apply elem_of_cons in IH as [->|Hin].
      * apply list_elem_of_here.
      * by do 2 apply list_elem_of_further.
    + apply list_elem_of_further. by apply IH.
Qed.

Lemma Math_max_attained l :
  l ≠ [] → Forall (fun x => x ≠ NaN) l → Math_max l ∈ l.
Proof.
  destruct l as [|x l]; [done|]. intros _ [Hx Hl]%Forall_cons.
  unfold Math_max. cbn [fold_left].
  assert (max2 NegInfinity x = x) as -> by by destruct x.
  by apply fold_max2_in.
Qed.

(** X7. When [extractIco] returned at least one candidate and no null, the
    loop of [installIcon] runs with the [Math.max] of the bit depths as
    [highestDepth]; it is a number, neither NaN nor minus infinity, and it
    is the bit depth, as a number, of one of the candidates: the depth test
    of the loop can be passed. *)
Theorem installIcon_highest_depth_attained E src dest w cands :
  (extractIco E src dest w).1 = Returns (map Some cands) →
  cands ≠ [] →
  (∀ C app_id,
      install_sizes C app_id (map Some cands)
      = place_all C app_id (highestDepth_of cands) (map Some cands) false)
  ∧ highestDepth_of cands ≠ NaN
  ∧ highestDepth_of cands ≠ NegInfinity
  ∧ ∃ v, v ∈ cands ∧ ToNumber (bitdepth v) = highestDepth_of cands.
Proof.
  intros Hx Hne.
  assert (Hnum : Forall (fun x => x ≠ NaN ∧ x ≠ NegInfinity)
                   (map (fun c => ToNumber (bitdepth c)) cands)).
  { apply Forall_forall. intros x (v & -> & Hv)%list_elem_of_fmap.
    assert (Ho : Some v ∈ map Some cands) by by apply list_elem_of_fmap_2.
    destruct (extractIco_parsed E src dest w _ v Hx Ho) as (name & _ & Hp & _).
    destruct (parse_size_numeric _ _ _ Hp) as (_ & _ & _ & Hb).
    by apply ToNumber_digits. }
  assert (Hne' : map (fun c => ToNumber (bitdepth c)) cands ≠ []).
  { intros Hm. apply Hne. by apply fmap_nil_inv in Hm. }
  assert (Hin : highestDepth_of cands
                ∈ map (fun c => ToNumber (bitdepth c)) cands).
  { apply Math_max_attained; [done|].
    eapply Forall_impl; [exact Hnum|]. by intros x [? _]. }
  rewrite Forall_forall in Hnum. destruct (Hnum _ Hin) as [Hnan Hneg].
  split_and!; try done.
  - intros C app_id. unfold install_sizes, highestDepth_of.
    by rewrite bitdepths_some, map_map.
  - apply list_elem_of_fmap in Hin as (v & Hv & Hin). by exists v.
Qed.

Lemma installIcon_highest_depth_attained_witness :
  highestDepth_of Cases.unpacked_cands ≠ NaN
  ∧ ∃ v, v ∈ Cases.unpacked_cands
         ∧ ToNumber (bitdepth v) = highestDepth_of Cases.unpacked_cands.
Proof.
  assert (P0 : (extractIco Demo.E (Some Demo.ico) Cases.dest440 Demo.downloaded).1
               = Returns (map Some Cases.unpacked_cands))
    by (vm_compute; reflexivity).
  assert (P1 : Cases.unpacked_cands ≠ []) by discriminate.
  exact (let H := installIcon_highest_depth_attained Demo.E (Some Demo.ico)
                    Cases.dest440 Demo.downloaded Cases.unpacked_cands P0 P1 in
         conj (proj1 (proj2 H)) (proj2 (proj2 (proj2 H)))).
Defined.
(** ** More on the selection loop *)

Section LoopMore.

Variable C : config.
Variable app_id : string.
Variable highestDepth : jsnum.

Lemma fresh_events_same w w1 w' :
  events w1 = events w → fresh_events w w' = fresh_events w1 w'.
Proof. intros He. unfold fresh_events. by rewrite He. Qed.

Lemma place_all_distinct sizes : ∀ s w,
  Forall is_Some sizes →
  NoDup (copy_targets
           (fresh_events w (place_all C app_id highestDepth sizes s w).2))
  ∧ ∀ src dst,
      EvCopy src dst
        ∈ fresh_events w (place_all C app_id highestDepth sizes s w).2 →
      ∃ c, files (place_all C app_id highestDepth sizes s w).2 !! src = Some c
           ∧ files (place_all C app_id highestDepth sizes s w).2 !! dst = Some c.
Proof.
  induction sizes as [|[v|] rest IH]; intros s w Hall.
  - simpl. rewrite (fresh_events_app w w []) by done.
    split; [apply NoDup_nil_2|]. intros src dst Hin. by apply elem_of_nil in Hin.
  - apply Forall_cons in Hall as [_ Hall].
    cbn [place_all]. unfold bind at 1 2 3 4.
    destruct (place_turn C app_id highestDepth v s w)
      as [w1 Hf Hd He Hno | e Ha Hdir Hdst Hcopy | Ha Hdir Hdst
         | content Ha Hdir Hdst Hsrc Hfree].
    + rewrite (fresh_events_same w w1) by done. apply (IH s w1 Hall).
    + apply (IH s w Hall).
    + apply (IH true w Hall).
    + set (w1 := emit _ _).
      destruct (IH true w1 Hall) as [Hnd Hfaith].
      destruct (place_all_run C app_id highestDepth rest true w1 Hall)
        as (b & new & w' & Hrun & R).
      rewrite Hrun in *. simpl in *.
      pose proof (run_events _ _ _ _ _ _ _ _ _ R) as He.
      rewrite (fresh_events_app w1 w' new He) in Hnd, Hfaith.
      rewrite (fresh_events_app w w' (new ++ [EvCopy (path v) (destPath C app_id v)])).
      2:{ rewrite He. subst w1. simpl. by rewrite <- app_assoc. }
      assert (Hd1 : files w1 !! destPath C app_id v = Some content).
      { subst w1. simpl. by rewrite lookup_insert_eq. }
      assert (Hs1 : files w1 !! path v = Some content).
      { subst w1. simpl. rewrite lookup_insert_ne; [done|]. intros Heq.
        rewrite Heq in Hfree. congruence. }
      split.
      * unfold copy_targets in *. rewrite omap_app. simpl.
        apply NoDup_app. split_and!; [done| |apply NoDup_singleton].
        intros dst Hin ->%list_elem_of_singleton.
        apply list_elem_of_omap in Hin as (e & Hin & Hdst').
        pose proof (run_copies _ _ _ _ _ _ _ _ _ R) as Hlaw.
        rewrite Forall_forall in Hlaw.
        destruct (Hlaw e Hin) as (u & _ & _ & -> & Hfu).
        simpl in Hdst'. injection Hdst' as Hdst'. rewrite Hdst' in Hfu. congruence.
      * intros src dst [Hin|Hin%list_elem_of_singleton]%elem_of_app.
        -- by apply Hfaith.
        -- injection Hin as -> ->. exists content.
           split; by apply (run_files _ _ _ _ _ _ _ _ _ R).
  - apply Forall_cons in Hall as [[? [=]] _].
Qed.

End LoopMore.

(** X8. The copies of one run of the selection loop go to pairwise
    different destinations, and when the loop is over each destination
    holds the contents its source holds: no copy of the run is overwritten
    by a later one. *)
Theorem installIcon_copies_distinct_and_faithful C app_id cands w :
  let w' := (install_sizes C app_id (map Some cands) w).2 in
  NoDup (copy_targets (fresh_events w w'))
  ∧ ∀ src dst, EvCopy src dst ∈ fresh_events w w' →
      ∃ c, files w' !! src = Some c ∧ files w' !! dst = Some c.
Proof.
  unfold install_sizes. rewrite bitdepths_some.
  apply place_all_distinct, Forall_is_Some_map.
Qed.



(** ** One entry, step by step *)

Lemma createDesktopFile_steps E C dir w :
  createDesktopFile E C dir w = entry_steps E C dir w.
Proof.
  unfold createDesktopFile, entry_steps, gamePath, markerPath, shortcutPath,
    shortcut_of.
  unfold try_catch at 1, bind at 1, Fs.stat_isDirectory.
  destruct (Fs.is_dir _ w); simpl.
  2:{ by destruct (Fs.is_file _ w). }
  unfold try_catch at 1.
  destruct (Fs.existsSync _ w); simpl; [|done].
  unfold bind at 1.
  pose proof (readFile_world
    (Path.join [Path.join [steamCommonPath C; dir]; "steam_appid.txt"]) w) as Hw.
  destruct (Fs.readFile _ w) as [[fd|e| |] w0]; simpl in Hw; subst w0; try done.
  unfold bind at 1. simpl.
  destruct (installIcon E C _ w) as [[b|e| |] w1]; try done.
  unfold try_catch, bind, Fs.writeFile. simpl.
  by destruct (Fs.check_target _ w1).
Qed.

Lemma settles_try_catch {A} (m : M A) (h : js_error → M A) :
  settles m → (∀ e, settles (h e)) → settles (try_catch m h).
Proof.
  intros Hm Hh w. unfold try_catch. specialize (Hm w).
  destruct (m w) as [[a|e| |] w1]; simpl in *; try done. apply Hh.
Qed.

Lemma settles_readdir p : settles (Fs.readdir p).
Proof. intros w. unfold Fs.readdir. by destruct (Fs.is_dir _ w). Qed.
Lemma settles_copyFile src dst : settles (Fs.copyFile src dst).
Proof.
  intros w. by destruct (copyFile_cases src dst w) as [[e ->]|(c & _ & _ & ->)].
Qed.









(** X11. An entry that is not a directory holding a marker file is
    skipped: [createDesktopFile] returns with the world unchanged when the
    entry exists, and with the error of [stat] logged, nothing else, when
    it does not. *)
Theorem createDesktopFile_skips E C dir w :
  Fs.is_dir (gamePath C dir) w && Fs.existsSync (markerPath C dir) w = false →
  createDesktopFile E C dir w
  = (Returns tt,
     if Fs.existsSync (gamePath C dir) w then w
     else print (Err (show_error (FsError "ENOENT" (gamePath C dir)))) w).
Proof.
  intros Hno. rewrite createDesktopFile_steps. unfold entry_steps.
  destruct (Fs.is_dir (gamePath C dir) w) eqn:Hd; simpl in Hno.
  - rewrite Hno. unfold Fs.existsSync. by rewrite Hd.
  - unfold Fs.existsSync. rewrite Hd.
    by destruct (Fs.is_file (gamePath C dir) w).
Qed.

Lemma createDesktopFile_skips_witness :
  createDesktopFile Demo.E Demo.cfg "Dota" Demo.w0
  = (Returns tt,
     if Fs.existsSync (gamePath Demo.cfg "Dota") Demo.w0 then Demo.w0
     else print (Err (show_error (FsError "ENOENT" (gamePath Demo.cfg "Dota"))))
            Demo.w0).
Proof.
  assert (P0 : Fs.is_dir (gamePath Demo.cfg "Dota") Demo.w0
               && Fs.existsSync (markerPath Demo.cfg "Dota") Demo.w0 = false)
    by (vm_compute; reflexivity).
  exact (createDesktopFile_skips Demo.E Demo.cfg "Dota" Demo.w0 P0).
Defined.

Lemma check_target_no_slash p w :
  Fs.check_target p w = None → Str.ends_with_slash p = false.
Proof.
  unfold Fs.check_target. destruct (Fs.is_dir p w); [done|].
  by destruct (Str.ends_with_slash p).
Qed.

(** X12. When the marker file is read, [installIcon] returns and the name
    of the shortcut can be written, [createDesktopFile] returns, the
    shortcut file holds exactly the contents for the directory, the id and
    the icon, whatever it held before, and the last line on the console is
    the one that reports the shortcut. *)
Theorem createDesktopFile_replaces_shortcut E C dir w fd installed :
  Fs.is_dir (gamePath C dir) w = true →
  Fs.existsSync (markerPath C dir) w = true →
  (Fs.readFile (markerPath C dir) w).1 = Returns fd →
  (installIcon E C (Str.first_field "010" fd) w).1 = Returns installed →
  Fs.check_target (shortcutPath C dir)
    (installIcon E C (Str.first_field "010" fd) w).2 = None →
  let r := createDesktopFile E C dir w in
  r.1 = Returns tt
  ∧ files r.2 !! shortcutPath C dir
    = Some (shortcut_of C dir (Str.first_field "010" fd) installed).2
  ∧ Fs.existsSync (shortcutPath C dir) r.2 = true
  ∧ console r.2
    = Out ("Created .desktop file for '" +:+ dir +:+ "' ("
           +:+ Str.first_field "010" fd +:+ ").")
      :: console (installIcon E C (Str.first_field "010" fd) w).2.
Proof.
  intros Hd Hm Hrd Hi Hfree r. subst r.
  rewrite createDesktopFile_steps. unfold entry_steps. rewrite Hd, Hm.
  destruct (Fs.readFile (markerPath C dir) w) as [o w0]. simpl in Hrd. subst o.
  cbv zeta.
  destruct (installIcon E C (Str.first_field "010" fd) w) as [o w1].
  simpl in Hi, Hfree. subst o. rewrite Hfree. simpl.
  split_and!; try done.
  - by rewrite lookup_insert_eq.
  - unfold Fs.existsSync, Fs.is_file. simpl.
    rewrite (check_target_no_slash _ _ Hfree). simpl.
    rewrite canon_no_slash by exact (check_target_no_slash _ _ Hfree).
    rewrite lookup_insert_eq. rewrite bool_decide_eq_true_2 by eauto.
    apply orb_true_r.
Qed.

Lemma createDesktopFile_replaces_shortcut_witness :
  files Cases.w_relaunch !! shortcutPath Demo.cfg "Portal" = Some "old shortcut"
  ∧ files (createDesktopFile Demo.E Demo.cfg "Portal" Cases.w_relaunch).2
      !! shortcutPath Demo.cfg "Portal"
    = Some (shortcut_of Demo.cfg "Portal"
              (Str.first_field "010" Demo.appid_440) true).2.
Proof.
  assert (P1 : Fs.is_dir (gamePath Demo.cfg "Portal") Cases.w_relaunch = true)
    by (vm_compute; reflexivity).
  assert (P2 : Fs.existsSync (markerPath Demo.cfg "Portal") Cases.w_relaunch = true)
    by (vm_compute; reflexivity).
  assert (P3 : (Fs.readFile (markerPath Demo.cfg "Portal") Cases.w_relaunch).1
               = Returns Demo.appid_440)
    by (vm_compute; reflexivity).
  assert (P4 : (installIcon Demo.E Demo.cfg (Str.first_field "010" Demo.appid_440)
                  Cases.w_relaunch).1 = Returns true)
    by (vm_compute; reflexivity).
  assert (P5 : Fs.check_target (shortcutPath Demo.cfg "Portal")
                 (installIcon Demo.E Demo.cfg (Str.first_field "010" Demo.appid_440)
                    Cases.w_relaunch).2 = None)
    by (vm_compute; reflexivity).
  assert (P6 : files Cases.w_relaunch !! shortcutPath Demo.cfg "Portal"
               = Some "old shortcut")
    by (vm_compute; reflexivity).
  exact (conj P6
           (proj1 (proj2 (createDesktopFile_replaces_shortcut Demo.E Demo.cfg
                            "Portal" Cases.w_relaunch Demo.appid_440 true
                            P1 P2 P3 P4 P5)))).
Defined.

Lemma extractIco_makes_dir E src dest w sizes w' :
  extractIco E src dest w = (Returns sizes, w') →
  Fs.existsSync dest w' = true.
Proof.
  unfold extractIco, bind at 1, Fs.mkdir.
  destruct (_ || _); [done|].
  destruct (Fs.check_parent _ w); [done|].
  unfold bind at 1, exec_icotool. cbn [fst snd files dirs emit with_dirs].
  destruct (icotool E _); [done| |done].
  unfold bind, ret, Fs.readdir.
  match goal with |- context [Fs.is_dir ?p ?x] => destruct (Fs.is_dir p x) end;
    [|done].
  intros [= <- <-]. unfold Fs.existsSync, Fs.is_dir. simpl.
  rewrite bool_decide_eq_true_2; [done|]. set_solver.
Qed.

Lemma installIcon_returns_dir E C app_id w b w1 :
  installIcon E C app_id w = (Returns b, w1) →
  Fs.existsSync (sizesDir C app_id) w1 = true.
Proof.
  unfold installIcon, bind at 1.
  destruct (downloadIcon E C app_id w) as [[ico|e| |] w0]; try done.
  unfold bind at 1. fold (sizesDir C app_id).
  destruct (extractIco E ico (sizesDir C app_id) w0) as [[sizes|e| |] w2] eqn:Hx;
    try done.
  apply extractIco_makes_dir in Hx. intros Hi.
  pose proof (traced_install_sizes C (fun _ => True) app_id sizes ltac:(done) w2) as Hg.
  rewrite Hi in Hg. by apply (grows_existsSync _ _ _ _ Hg).
Qed.

(** The extraction directory is taken: [installIcon] does not return (at
    the latest [mkdir] refuses), and nothing is placed. *)
Lemma installIcon_dir_taken E C app_id w :
  Fs.existsSync (sizesDir C app_id) w = true →
  ∃ o w', installIcon E C app_id w = (o, w')
          ∧ (∀ b, o ≠ Returns b)
          ∧ grows unplaced w w'.
Proof.
  intros Hex. unfold installIcon, bind at 1.
  assert (Hd : traced unplaced (downloadIcon E C app_id))
    by by apply traced_downloadIcon.
  specialize (Hd w).
  destruct (downloadIcon E C app_id w) as [[ico|e| |] w1]; simpl in Hd;
    try by (eexists _, _; split_and!; [reflexivity|done|done]).
  apply (grows_existsSync _ _ _ _ Hd) in Hex.
  unfold bind at 1, extractIco, bind at 1, Fs.mkdir.
  fold (sizesDir C app_id). rewrite Hex. simpl.
  eexists _, _. split_and!; [reflexivity|done|done].
Qed.

Lemma createDesktopFile_dir_taken E C dir w fd :
  (Fs.readFile (markerPath C dir) w).1 = Returns fd →
  Fs.existsSync (sizesDir C (Str.first_field "010" fd)) w = true →
  Forall unplaced (fresh_events w (createDesktopFile E C dir w).2).
Proof.
  intros Hrd Hex. rewrite createDesktopFile_steps. unfold entry_steps.
  destruct (Fs.is_dir (gamePath C dir) w).
  2:{ destruct (Fs.is_file _ w); simpl; by rewrite (fresh_events_app w _ []). }
  destruct (Fs.existsSync (markerPath C dir) w).
  2:{ by rewrite (fresh_events_app w _ []). }
  destruct (Fs.readFile (markerPath C dir) w) as [o w0]. simpl in Hrd. subst o.
  cbv zeta.
  destruct (installIcon_dir_taken E C _ w Hex) as (o & w1 & -> & Hnr & Hg).
  destruct o as [b|e| |]; [by destruct (Hnr b)|..];
    apply (grows_fresh unplaced); exact Hg.
Qed.

(** X13. [createDesktopFile] run twice, one run after the other: when the
    first run has written the shortcut of its entry and the second run, in
    the world the first one left, is on an entry whose marker file gives the
    same id, the second run copies nothing into the icon theme and writes
    no shortcut. *)
Theorem createDesktopFile_same_id_again E C dir1 dir2 w fd1 fd2 :
  (Fs.readFile (markerPath C dir1) w).1 = Returns fd1 →
  shortcuts (fresh_events w (createDesktopFile E C dir1 w).2) ≠ [] →
  (Fs.readFile (markerPath C dir2) (createDesktopFile E C dir1 w).2).1
  = Returns fd2 →
  Str.first_field "010" fd2 = Str.first_field "010" fd1 →
  Forall unplaced
    (fresh_events (createDesktopFile E C dir1 w).2
       (createDesktopFile E C dir2 (createDesktopFile E C dir1 w).2).2).
Proof.
  intros Hrd1 Hwritten Hrd2 Hid.
  apply (createDesktopFile_dir_taken E C dir2 _ fd2 Hrd2). rewrite Hid.
  clear Hrd2 Hid. revert Hwritten.
  rewrite createDesktopFile_steps. unfold entry_steps.
  destruct (Fs.is_dir (gamePath C dir1) w).
  2:{ destruct (Fs.is_file _ w); simpl; by rewrite (fresh_events_app w _ []). }
  destruct (Fs.existsSync (markerPath C dir1) w).
  2:{ by rewrite (fresh_events_app w _ []). }
  destruct (Fs.readFile (markerPath C dir1) w) as [o w0]. simpl in Hrd1. subst o.
  cbv zeta.
  pose proof (traced_installIcon E C (Str.first_field "010" fd1) w) as Hg.
  destruct (installIcon E C (Str.first_field "010" fd1) w) as [[b|e| |] w1] eqn:Hi;
    simpl in Hg.
  - apply installIcon_returns_dir in Hi.
    destruct (Fs.check_target (shortcutPath C dir1) w1); intros _.
    + exact Hi.
    + eapply grows_existsSync; [|exact Hi].
      apply (grows_emit_file (fun _ => True)). done.
  - intros H. destruct H. apply shortcuts_unwritten, (grows_fresh _ _ _ Hg).
  - intros H. destruct H. apply shortcuts_unwritten, (grows_fresh _ _ _ Hg).
  - intros H. destruct H. apply shortcuts_unwritten, (grows_fresh _ _ _ Hg).
Qed.

Lemma createDesktopFile_same_id_again_witness :
  Forall unplaced
    (fresh_events (createDesktopFile Demo.E Demo.cfg "Portal" Cases.twins).2
       (createDesktopFile Demo.E Demo.cfg "Dota"
          (createDesktopFile Demo.E Demo.cfg "Portal" Cases.twins).2).2).
Proof.
  assert (P1 : (Fs.readFile (markerPath Demo.cfg "Portal") Cases.twins).1
               = Returns Demo.appid_440)
    by (vm_compute; reflexivity).
  assert (P2 : shortcuts (fresh_events Cases.twins
                 (createDesktopFile Demo.E Demo.cfg "Portal" Cases.twins).2) ≠ [])
    by (vm_compute; discriminate).
  assert (P3 : (Fs.readFile (markerPath Demo.cfg "Dota")
                  (createDesktopFile Demo.E Demo.cfg "Portal" Cases.twins).2).1
               = Returns Demo.appid_440)
    by (vm_compute; reflexivity).
  exact (createDesktopFile_same_id_again Demo.E Demo.cfg "Portal" "Dota"
           Cases.twins Demo.appid_440 Demo.appid_440 P1 P2 P3 eq_refl).
Defined.

(** ** The text of the shortcut *)

Lemma split_on_one_line s : one_line s → Str.split_on "010" s = [s].
Proof.
  unfold one_line, Str.chars. induction s as [|c s IH]; [done|].
  simpl. intros [Hc Hs]%andb_true_iff. apply negb_true_iff in Hc.
  rewrite Hc, IH; done.
Qed.

Lemma split_on_line a b :
  one_line a → Str.split_on "010" (a +:+ String "010" b) = a :: Str.split_on "010" b.
Proof.
  unfold one_line, Str.chars. induction a as [|c a IH].
  - intros _. change ("" +:+ String "010" b) with (String "010" b). done.
  - simpl. intros [Hc Hs]%andb_true_iff. apply negb_true_iff in Hc.
    change (String c a +:+ String "010" b) with (String c (a +:+ String "010" b)).
    cbn [Str.split_on]. rewrite Hc, IH; done.
Qed.

Lemma first_field_one_line fd : one_line (Str.first_field "010" fd).
Proof.
  unfold one_line, Str.first_field, Str.chars.
  induction fd as [|c fd IH]; [done|]. simpl.
  destruct (Ascii.eqb c "010") eqn:Hc; [done|].
  destruct (Str.split_on "010" fd) as [|seg segs]; simpl in *.
  - by rewrite Hc.
  - by rewrite Hc, IH.
Qed.

Lemma one_line_app a b : one_line a → one_line b → one_line (a +:+ b).
Proof.
  unfold one_line. rewrite chars_app, forallb_app. by intros -> ->.
Qed.

(** X14. For a directory name without a line feed the shortcut has the
    eight lines of a desktop entry followed by an empty line, each ended by
    a line feed: the id, cut at the first line feed of the marker file,
    never breaks a line, and the name, the id and the icon stand in the
    Name, Exec and Icon lines. *)
Theorem shortcut_lines C dir fd installed :
  one_line dir →
  Str.split_on "010"
    (shortcut_of C dir (Str.first_field "010" fd) installed).2
  = ["[Desktop Entry]";
     "Name=" +:+ dir;
     "Comment=Play this game on Steam";
     "Exec=steam steam://rungameid/" +:+ Str.first_field "010" fd;
     "Icon=" +:+ (if installed then "steam_icon_" +:+ Str.first_field "010" fd
                  else "steam");
     "Terminal=false";
     "Type=Application";
     "Categories=Game;";
     "";
     ""].
Proof.
  intros Hdir. pose proof (first_field_one_line fd) as Hid.
  set (appid := Str.first_field "010" fd) in *.
  assert (Hicon : one_line (if installed then "steam_icon_" +:+ appid else "steam")).
  { destruct installed; [|done]. by apply one_line_app. }
  unfold shortcut_of, desktopFileContent. cbn [snd name id].
  change ("
") with (String "010" "").
  repeat match goal with
  | |- context [?a +:+ String "010" "" +:+ ?b] =>
      change (a +:+ String "010" "" +:+ b) with (a +:+ String "010" b)
  end.
  rewrite (split_on_line "[Desktop Entry]") by done.
  rewrite <- (append_assoc "Name=" dir).
  rewrite (split_on_line ("Name=" +:+ dir)) by (by apply one_line_app).
  rewrite (split_on_line "Comment=Play this game on Steam") by done.
  rewrite <- (append_assoc "Exec=steam steam://rungameid/" appid).
  rewrite (split_on_line ("Exec=steam steam://rungameid/" +:+ appid))
    by (by apply one_line_app).
  rewrite <- (append_assoc "Icon=" _).
  rewrite (split_on_line ("Icon=" +:+ _)) by (by apply one_line_app).
  rewrite (split_on_line "Terminal=false") by done.
  rewrite (split_on_line "Type=Application") by done.
  rewrite (split_on_line "Categories=Game;") by done.
  reflexivity.
Qed.

Lemma shortcut_lines_witness :
  Str.split_on "010"
    (shortcut_of Demo.cfg "Portal" (Str.first_field "010" Demo.appid_440) true).2
  = ["[Desktop Entry]";
     "Name=" +:+ "Portal";
     "Comment=Play this game on Steam";
     "Exec=steam steam://rungameid/" +:+ Str.first_field "010" Demo.appid_440;
     "Icon=" +:+ (if true then "steam_icon_" +:+ Str.first_field "010" Demo.appid_440
                  else "steam");
     "Terminal=false";
     "Type=Application";
     "Categories=Game;";
     "";
     ""].
Proof.
  assert (P0 : one_line "Portal") by (vm_compute; reflexivity).
  exact (shortcut_lines Demo.cfg "Portal" Demo.appid_440 true P0).
Defined.

(** ** The directories of the theme *)

Lemma ends_with_slash_app a b :
  Str.ends_with_slash b = true → Str.ends_with_slash (a +:+ b) = true.
Proof.
  unfold Str.ends_with_slash. rewrite chars_app.
  destruct (Str.chars b) as [|c l] eqn:Hc; [done|].
  by rewrite last_app_cons.
Qed.

Lemma normalize_trailing p :
  Str.ends_with_slash p = true → Str.ends_with_slash (Path.normalize p) = true.
Proof.
  intros Hp. unfold Path.normalize. destruct p as [|c p]; [done|]. simpl Str.is_empty.
  cbv iota. rewrite Hp. cbv zeta.
  destruct (Str.is_empty _).
  - by destruct (Str.starts_with_slash _).
  - destruct (Str.starts_with_slash _); repeat apply ends_with_slash_app; done.
Qed.

Lemma iconDir_slash C v : Str.ends_with_slash (iconDir C v) = true.
Proof.
  unfold iconDir, Path.join.
  assert (HX : Str.is_empty (width v +:+ "x" +:+ height v +:+ "/") = false).
  { by destruct (width v). }
  set (X := width v +:+ "x" +:+ height v +:+ "/") in *.
  rewrite filter_cons. destruct (decide _) as [H1|H1];
    rewrite filter_cons; (destruct (decide _) as [H2|H2]; [|by rewrite HX in H2]);
    rewrite filter_cons; (destruct (decide _); [|done]); rewrite filter_nil;
    apply normalize_trailing; cbn [String.concat];
    repeat apply ends_with_slash_app; done.
Qed.

Lemma iconDir_exists C v w :
  Fs.existsSync (iconDir C v) w = Fs.is_dir (iconDir C v) w.
Proof.
  unfold Fs.existsSync, Fs.is_file. rewrite iconDir_slash. simpl.
  apply orb_false_r.
Qed.

Section Theme.

Variable C : config.
Variable app_id : string.
Variable highestDepth : jsnum.

Lemma place_all_theme sizes : ∀ s w,
  Forall is_Some sizes →
  ∀ e, e ∈ fresh_events w (place_all C app_id highestDepth sizes s w).2 →
       ∃ v, Some v ∈ sizes
            ∧ e = EvCopy (path v) (destPath C app_id v)
            ∧ Fs.is_dir (iconDir C v) w = true.
Proof.
  induction sizes as [|[v|] rest IH]; intros s w Hall e.
  - simpl. rewrite (fresh_events_app w w []) by done.
    intros Hin. by apply elem_of_nil in Hin.
  - apply Forall_cons in Hall as [_ Hall].
    cbn [place_all]. unfold bind at 1.
    assert (Hrest : ∀ s1 w1, dirs w1 = dirs w →
              e ∈ fresh_events w1 (place_all C app_id highestDepth rest s1 w1).2 →
              ∃ u, Some u ∈ Some v :: rest
                   ∧ e = EvCopy (path u) (destPath C app_id u)
                   ∧ Fs.is_dir (iconDir C u) w = true).
    { intros s1 w1 Hd Hin. destruct (IH s1 w1 Hall e Hin) as (u & Hu & -> & Hdir).
      exists u. split_and!; [by apply elem_of_cons; right|done|].
      unfold Fs.is_dir in *. by rewrite <- Hd. }
    destruct (place_turn C app_id highestDepth v s w)
      as [w1 Hf Hd He Hno | e' Ha Hdir Hdst Hcopy | Ha Hdir Hdst
         | content Ha Hdir Hdst Hsrc Hfree].
    + rewrite (fresh_events_same w w1) by done. by apply Hrest.
    + by apply Hrest.
    + by apply Hrest.
    + set (w1 := emit _ _).
      destruct (place_all_run C app_id highestDepth rest true w1 Hall)
        as (b & new & w' & Hrun & R).
      pose proof (Hrest true w1 eq_refl) as Hr.
      rewrite Hrun in *. simpl in *.
      pose proof (run_events _ _ _ _ _ _ _ _ _ R) as Hev.
      rewrite (fresh_events_app w1 w' new Hev) in Hr.
      rewrite (fresh_events_app w w' (new ++ [EvCopy (path v) (destPath C app_id v)])).
      2:{ rewrite Hev. subst w1. simpl. by rewrite <- app_assoc. }
      intros [Hin|Hin%list_elem_of_singleton]%elem_of_app; [by apply Hr|].
      exists v. split_and!; [apply list_elem_of_here|done|].
      by rewrite <- iconDir_exists.
  - apply Forall_cons in Hall as [[? [=]] _].
Qed.

End Theme.

(** X15. The selection loop makes no directory, and every copy it makes is
    of a candidate of the list, under the icon name of the application,
    into a directory of the theme that was there before the loop started:
    sizes the theme has no directory for are left out. *)
Theorem installIcon_needs_theme_directory C app_id cands w :
  dirs (install_sizes C app_id (map Some cands) w).2 = dirs w
  ∧ ∀ e, e ∈ fresh_events w (install_sizes C app_id (map Some cands) w).2 →
      ∃ v, v ∈ cands
           ∧ e = EvCopy (path v) (destPath C app_id v)
           ∧ Fs.is_dir (iconDir C v) w = true.
Proof.
  split.
  - destruct (install_sizes_run C app_id cands w) as (b & new & w' & -> & R).
    by apply (run_dirs _ _ _ _ _ _ _ _ _ R).
  - unfold install_sizes. rewrite bitdepths_some. intros e Hin.
    destruct (place_all_theme C app_id _ _ false w (Forall_is_Some_map cands) e Hin)
      as (v & Hv & -> & Hd).
    exists v. split_and!; try done.
    by apply list_elem_of_fmap_inj_2 in Hv; [|apply _].
Qed.

(** ** A second unpacking *)

Lemma extractIco_taken E src dest w :
  Fs.existsSync dest w || Fs.existsSync (Path.canon dest) w = true →
  extractIco E src dest w = (Throws (FsError "EEXIST" (Path.canon dest)), w).
Proof. intros Hex. unfold extractIco, bind at 1, Fs.mkdir. by rewrite Hex. Qed.

Lemma extractIco_leaves_dir E src dest w o w' :
  Fs.check_parent (Path.canon dest) w = None →
  extractIco E src dest w = (o, w') →
  Fs.existsSync dest w' || Fs.existsSync (Path.canon dest) w' = true.
Proof.
  intros Hpar. unfold extractIco, bind at 1, Fs.mkdir.
  destruct (Fs.existsSync dest w || Fs.existsSync (Path.canon dest) w) eqn:Hex;
    [by intros [= <- <-]|].
  rewrite Hpar. set (w1 := emit _ _).
  assert (H1 : Fs.existsSync dest w1 = true).
  { unfold Fs.existsSync, Fs.is_dir. subst w1. simpl.
    rewrite bool_decide_eq_true_2; [done|]. set_solver. }
  assert (Hg : grows every_event w1
                 ((exec_icotool E src dest;;
                   let! files := Fs.readdir dest
                   in ret (map (parse_size dest) files)) w1).2).
  { apply traced_bind; [by apply traced_exec_icotool|]. intros _.
    apply traced_bind; [apply traced_readdir|]. intros l. apply traced_ret. }
  intros Hx. rewrite Hx in Hg. simpl in Hg.
  apply orb_true_iff. left.
  by apply (grows_existsSync _ _ _ _ Hg).
Qed.

(** X16. [extractIco] cannot be run twice on one destination: whatever the
    first run did, the directory is there afterwards, so a second run is
    refused by [mkdir] with EEXIST before any tool is started, and changes
    nothing. *)
Theorem extractIco_not_repeatable E src dest w E' src' :
  Fs.check_parent (Path.canon dest) w = None →
  extractIco E' src' dest (extractIco E src dest w).2
  = (Throws (FsError "EEXIST" (Path.canon dest)), (extractIco E src dest w).2).
Proof.
  intros Hpar. apply extractIco_taken.
  destruct (extractIco E src dest w) as [o w'] eqn:Hx.
  by apply (extractIco_leaves_dir E src dest w o w').
Qed.

Lemma extractIco_not_repeatable_witness :
  extractIco Demo.E (Some Demo.ico) Cases.dest440
    (extractIco Demo.E (Some Demo.ico) Cases.dest440 Demo.downloaded).2
  = (Throws (FsError "EEXIST" (Path.canon Cases.dest440)),
     (extractIco Demo.E (Some Demo.ico) Cases.dest440 Demo.downloaded).2).
Proof.
  assert (P0 : Fs.check_parent (Path.canon Cases.dest440) Demo.downloaded = None)
    by (vm_compute; reflexivity).
  exact (extractIco_not_repeatable Demo.E (Some Demo.ico) Cases.dest440
           Demo.downloaded Demo.E (Some Demo.ico) P0).
Defined.

(** * Tasks, the batch and the whole run *)

(** ** A task alone is the function *)










Section Alone.

Variable E : env.
Variable C : config.












End Alone.

(** ** What every step of a task preserves *)

Section Along.

Variable R : world → world → Prop.
Hypothesis R_refl : ∀ w, R w w.
Hypothesis R_trans : ∀ w1 w2 w3, R w1 w2 → R w2 w3 → R w1 w3.

Lemma along_bind {A B : Type} (t : task A) (k : A → task B) :
  along R t → (∀ a, along R (k a)) → along R (bind_t t k).
Proof.
  revert B k.
  induction t as [A [a|e| |c]|A n IH e|A n IH e|A|A c IHc t IHt];
    intros B k Ht Hk; simpl in *; try done.
  - destruct Ht. split; [done|]. intros w. by apply IH.
  - destruct Ht. split; [done|]. intros w. by apply IH.
  - destruct Ht. split; [done|]. by apply IHt.
Qed.

Lemma along_try {A : Type} (t : task A) (h : js_error → task A) :
  along R t → (∀ e, along R (h e)) → along R (try_t t h).
Proof.
  revert h.
  induction t as [A [a|e| |c]|A n IH e|A n IH e|A|A c IHc t IHt];
    intros h Ht Hh; simpl in *; try done.
  - destruct Ht. split; [done|]. intros w. by apply IH.
  - destruct Ht. split; [done|]. intros w. by apply IH.
  - destruct Ht. split; [done|]. by apply IHt.
Qed.

Lemma along_await {A : Type} (m : M A) : (∀ w, R w (m w).2) → along R (await m).
Proof. by intros Hm. Qed.

Lemma along_sync {A : Type} (m : M A) : (∀ w, R w (m w).2) → along R (sync m).
Proof. by intros Hm. Qed.

Lemma along_advance {A : Type} (t : task A) : ∀ w,
  along R t →
  R w (advance t w).2
  ∧ Forall (along R) (advance t w).1.1
  ∧ along R (advance t w).1.2.
Proof.
  induction t as [A o|A n IH e|A n IH e|A|A c IHc k IHk];
    intros w Ht; cbn [advance].
  - by split_and!.
  - destruct Ht as [He Hn].
    destruct (IH w (e w) (Hn w)) as (H1 & H2 & H3). split_and!; try done.
    exact (R_trans _ _ _ (He w) H1).
  - by split_and!.
  - by split_and!.
  - destruct Ht as [Hc Hk].
    destruct (IHc w Hc) as (H1 & H2 & H3).
    destruct (advance c w) as [[cs1 c'] w1]. simpl in *.
    destruct (IHk w1 Hk) as (H4 & H5 & H6).
    destruct (advance k w1) as [[cs2 k'] w2]. simpl in *.
    split_and!; [exact (R_trans _ _ _ H1 H4)| |done].
    apply Forall_app. split; [done|]. by constructor.
Qed.

Lemma along_resume i (p : pool) w :
  Forall (along R) p →
  R w (resume i p w).2 ∧ Forall (along R) (resume i p w).1.
Proof.
  intros Hp. unfold resume.
  destruct (p !! i) as [t|] eqn:Hi; [|done].
  destruct t as [o|n e|n e| |c k]; try done.
  destruct (proj1 (Forall_lookup _ _) Hp i _ Hi) as [He Hn].
  destruct (along_advance (n w) (e w) (Hn w)) as (H1 & H2 & H3).
  destruct (advance (n w) (e w)) as [[cs t'] w']. simpl in *.
  split; [exact (R_trans _ _ _ (He w) H1)|].
  apply Forall_app. split; [by apply Forall_take|].
  apply Forall_app. split; [done|].
  constructor; [done|by apply Forall_drop].
Qed.

Lemma along_run_pool order : ∀ (p : pool) w,
  Forall (along R) p →
  R w (run_pool order p w).2 ∧ Forall (along R) (run_pool order p w).1.
Proof.
  induction order as [|i order IH]; intros p w Hp; [done|].
  cbn [run_pool]. destruct (along_resume i p w Hp) as [H1 H2].
  destruct (resume i p w) as [p' w']. simpl in *.
  destruct (IH p' w' H2) as [H3 H4]. split; [exact (R_trans _ _ _ H1 H3)|done].
Qed.

End Along.

(** ** The tasks of the script lose nothing *)

Section TracedTasks.

Variable E : env.
Variable C : config.
Variable P : fs_event → Prop.

Lemma grows_lastIndex i w : grows P w (with_lastIndex i w).
Proof. by apply grows_same. Qed.

Lemma traced_t_bind {A B : Type} (t : task A) (k : A → task B) :
  along (grows P) t → (∀ a, along (grows P) (k a)) → along (grows P) (bind_t t k).
Proof. apply along_bind. Qed.

Lemma traced_t_echo evs : ∀ closed, along (grows P) (echo closed evs).
Proof.
  induction evs as [|[output|code] evs IH]; intros closed; simpl.
  - by destruct closed.
  - split; [|done]. intros w. apply grows_lastIndex.
  - split; [|done]. intros w. apply grows_refl.
Qed.

Lemma traced_t_hear evs : ∀ closed, along (grows P) (hear closed evs).
Proof.
  induction evs as [|[output|code] evs IH]; intros closed; simpl.
  - by destruct closed.
  - split; [intros w; apply grows_lastIndex|]. intros w.
    destruct (Regex.exec_g _ _ _).1; [|done]. simpl.
    split; [apply traced_t_echo|]. split; [|done].
    intros w'. by apply grows_same.
  - split; [intros w; apply grows_refl|]. intros _.
    destruct code as [[|n]|]; try done. simpl.
    split; [apply traced_t_echo|]. split; [|done].
    intros w'. by apply grows_same.
Qed.

Lemma traced_t_downloadIcon app_id :
  (∀ d, P (EvDownload d)) → along (grows P) (downloadIcon_t E C app_id).
Proof.
  intros HP. unfold downloadIcon_t.
  apply along_bind; [apply traced_t_hear|].
  intros [[|c h]|]; try done.
  apply along_bind; [apply along_sync, traced_console_log|]. intros _.
  destruct (fetch E _); try done.
  - apply along_bind; [apply along_await, traced_ret|]. intros _.
    apply along_bind; [|done]. by apply along_await, traced_writeStream_wx.
  - apply along_bind; [apply along_await, traced_ret|]. intros _.
    apply along_bind; [|done]. apply along_await, traced_console_error.
  - apply along_await, traced_throw.
Qed.

Lemma traced_t_exec_icotool src dest :
  (∀ d l, P (EvExtract d l)) → along (grows P) (exec_icotool_t E src dest).
Proof.
  intros HP. split; [by apply traced_exec_icotool|].
  intros w. by destruct (icotool E _).
Qed.

Lemma traced_t_extractIco src dest :
  (∀ c, P (EvMkdir c)) → (∀ d l, P (EvExtract d l)) →
  along (grows P) (extractIco_t E src dest).
Proof.
  intros HP1 HP2. unfold extractIco_t.
  apply along_bind; [by apply along_await, traced_mkdir|]. intros _.
  apply along_bind; [by apply traced_t_exec_icotool|]. intros _.
  apply along_bind; [apply along_await, traced_readdir|done].
Qed.

Lemma traced_t_place app_id hd v s :
  (∀ a b, P (EvCopy a b)) → along (grows P) (place_t C app_id hd v s).
Proof.
  intros HP. split.
  - intros w. destruct (negb _); [by apply grows_same|apply grows_refl].
  - intros w. destruct (negb _); [done|]. destruct (negb _); [done|].
    destruct (negb _); [done|]. destruct (Fs.existsSync _ w); [done|].
    apply along_try; [|done]. apply along_bind; [|done].
    apply along_await. intros w'.
    destruct (copyFile_cases (path v) (destPath C app_id v) w')
      as [[e ->]|(c & _ & _ & ->)]; [apply grows_refl|].
    by apply grows_emit_file.
Qed.

Lemma traced_t_place_all app_id hd sizes :
  (∀ a b, P (EvCopy a b)) → ∀ s, along (grows P) (place_all_t C app_id hd sizes s).
Proof.
  intros HP. induction sizes as [|[v|] rest IH]; intros s; [done| |done].
  cbn [place_all_t]. apply along_bind; [by apply traced_t_place|done].
Qed.

Lemma traced_t_install_sizes app_id sizes :
  (∀ a b, P (EvCopy a b)) → along (grows P) (install_sizes_t C app_id sizes).
Proof.
  intros HP. unfold install_sizes_t.
  destruct (bitdepths sizes); [by apply traced_t_place_all|done].
Qed.

Lemma traced_t_installIcon app_id :
  (∀ e, is_write e = false → P e) → along (grows P) (installIcon_t E C app_id).
Proof.
  intros HP. unfold installIcon_t.
  apply along_bind; [apply traced_t_downloadIcon; intros; by apply HP|].
  intros ico.
  apply along_bind; [apply traced_t_extractIco; intros; by apply HP|].
  intros sizes. apply traced_t_install_sizes. intros; by apply HP.
Qed.

Lemma traced_t_log e : along (grows P) (log_t e).
Proof. apply along_sync. intros w. by apply grows_same. Qed.

Lemma traced_t_createDesktopFile dir :
  (∀ e, P e) → along (grows P) (createDesktopFile_t E C dir).
Proof.
  intros HP. unfold createDesktopFile_t.
  apply along_try; [|apply traced_t_log].
  apply along_bind.
  { apply along_await. intros w. unfold Fs.stat_isDirectory.
    destruct (Fs.is_dir _ w); [apply grows_refl|].
    destruct (Fs.is_file _ w); apply grows_refl. }
  intros [|]; [|done]. cbn [negb].
  apply along_try; [|apply traced_t_log].
  split; [intros w; apply grows_refl|]. intros w.
  destruct (negb _); [done|].
  apply along_bind.
  { apply along_await. intros w'. rewrite readFile_world. apply grows_refl. }
  intros fd. apply along_bind; [by apply traced_t_installIcon|].
  intros b. apply along_try; [|apply traced_t_log].
  apply along_bind; [|intros _; apply along_sync, traced_console_log].
  apply along_await. intros w'. unfold Fs.writeFile.
  destruct (Fs.check_target _ w'); [apply grows_refl|].
  by apply grows_emit_file.
Qed.

End TracedTasks.

(** Every listed entry is started, and waits for its [stat]. *)
Lemma dispatch_started E C files : ∀ w,
  dispatch E C files w = (map (createDesktopFile_t E C) files, w).
Proof.
  induction files as [|file rest IH]; intros w; [done|].
  change (dispatch E C (file :: rest) w)
    with (let '(cs, t, w1) := advance (createDesktopFile_t E C file) w in
          let '(p, w2) := dispatch E C rest w1 in
          (cs ++ t :: p, w2)).
  change (advance (createDesktopFile_t E C file) w)
    with ([] : list (task unit), createDesktopFile_t E C file, w).
  cbv iota beta. by rewrite IH.
Qed.

Lemma createAllDesktops_cases E C w :
  (Fs.existsSync (steamCommonPath C) w = false
   ∧ createAllDesktops E C w = (Exits 1, print (Err "Invalid path.") w))
  ∨ (Fs.existsSync (steamCommonPath C) w = true
     ∧ ∃ p w', createAllDesktops E C w = (Returns p, w')
               ∧ files w' = files w ∧ dirs w' = dirs w ∧ events w' = events w
               ∧ lastIndex w' = lastIndex w
               ∧ match (Fs.readdir (steamCommonPath C) w).1 with
                 | Returns names => p = map (createDesktopFile_t E C) names
                 | _ => p = []
                 end).
Proof.
  unfold createAllDesktops.
  destruct (Fs.existsSync (steamCommonPath C) w); [right|by left].
  split; [done|]. cbn [negb]. unfold try_catch, bind at 1.
  pose proof (readdir_world (steamCommonPath C) w) as Hw.
  pose proof (settles_readdir (steamCommonPath C) w) as Hs.
  destruct (Fs.readdir (steamCommonPath C) w) as [[l|e| |] w1];
    simpl in Hw, Hs; subst; try done.
  - unfold bind, console_log. cbn [fst snd]. rewrite dispatch_started.
    eexists _, _. by split_and!.
  - eexists _, _. by split_and!.
Qed.

(** ** The common directory has no trailing separator *)

Lemma split_on_cons sep s : ∃ seg segs, Str.split_on sep s = seg :: segs.
Proof.
  induction s as [|c s (seg & segs & IH)]; simpl; [by eauto|].
  destruct (Ascii.eqb c sep); [by eauto|]. rewrite IH. eauto.
Qed.

Lemma split_on_app sep a b :
  Str.split_on sep (a +:+ String sep b) = Str.split_on sep a ++ Str.split_on sep b.
Proof.
  induction a as [|c a IH].
  - change ("" +:+ String sep b) with (String sep b). simpl.
    by rewrite Ascii.eqb_refl.
  - change (String c a +:+ String sep b) with (String c (a +:+ String sep b)).
    simpl. destruct (Ascii.eqb c sep); rewrite IH; [done|].
    by destruct (split_on_cons sep a) as (seg & segs & ->).
Qed.

Lemma concat_snoc2 l x y :
  ∃ q, String.concat "/" (l ++ [x; y]) = q +:+ y.
Proof.
  induction l as [|a l (q & IH)].
  - exists (x +:+ "/"). simpl. by rewrite append_assoc.
  - exists (a +:+ "/" +:+ q).
    change ((a :: l) ++ [x; y]) with (a :: (l ++ [x; y])).
    destruct (l ++ [x; y]) as [|b l'] eqn:Hl; [by destruct l|].
    change (String.concat "/" (a :: b :: l'))
      with (a +:+ "/" +:+ String.concat "/" (b :: l')).
    by rewrite IH, !append_assoc.
Qed.

Lemma no_slash_common q : Str.ends_with_slash (q +:+ "common") = false.
Proof.
  unfold Str.ends_with_slash. rewrite chars_app.
  change (Str.chars "common") with (Str.chars "commo" ++ ["n"%char]).
  by rewrite app_assoc, last_snoc.
Qed.

Lemma normalize_common x :
  ∃ q, Path.normalize (x +:+ "/steamapps/common") = q +:+ "common".
Proof.
  unfold Path.normalize.
  assert (Hemp : Str.is_empty (x +:+ "/steamapps/common") = false)
    by by destruct x.
  rewrite Hemp.
  assert (Ht : Str.ends_with_slash (x +:+ "/steamapps/common") = false).
  { change (x +:+ "/steamapps/common") with (x +:+ ("/steamapps/" +:+ "common")).
    rewrite <- append_assoc. apply no_slash_common. }
  rewrite Ht. cbv zeta.
  assert (Hp : ∀ allow, ∃ q,
             Path.normalizeString (x +:+ "/steamapps/common") allow
             = q +:+ "common").
  { intros allow. unfold Path.normalizeString.
    change (x +:+ "/steamapps/common") with (x +:+ String "/" "steamapps/common").
    rewrite split_on_app.
    change (Str.split_on "/" "steamapps/common") with ["steamapps"; "common"].
    rewrite fold_left_app. cbn [fold_left].
    set (acc := fold_left _ _ _).
    change (Path.push_segment allow (Path.push_segment allow acc "steamapps")
              "common") with ("common" :: "steamapps" :: acc).
    cbn [rev]. rewrite <- !app_assoc. cbn [app]. apply concat_snoc2. }
  destruct (Hp (negb (Str.starts_with_slash (x +:+ "/steamapps/common"))))
    as [q ->].
  assert (Hne : Str.is_empty (q +:+ "common") = false) by by destruct q.
  rewrite Hne. cbv iota.
  destruct (Str.starts_with_slash _); [exists ("/" +:+ q)|by exists q].
  by rewrite append_assoc.
Qed.

Lemma common_no_slash arg : Str.ends_with_slash (common_of arg) = false.
Proof.
  unfold common_of, Path.join.
  destruct (Path.normalize arg) as [|c n].
  - by vm_compute.
  - rewrite filter_cons_True by done.
    change (filter _ ["steamapps"; "common"]) with ["steamapps"; "common"].
    change (String.concat "/" [String c n; "steamapps"; "common"])
      with (String c n +:+ "/steamapps/common").
    destruct (normalize_common (String c n)) as [q ->]. apply no_slash_common.
Qed.

(** ** The whole run *)

Lemma every_event_all (e : fs_event) : every_event e.
Proof. done. Qed.

Lemma createAllDesktops_pool E C w p w' :
  createAllDesktops E C w = (Returns p, w') →
  grows every_event w w' ∧ Forall (along (grows every_event)) p.
Proof.
  intros Hc.
  destruct (createAllDesktops_cases E C w)
    as [[_ Hx]|(_ & p0 & w0 & Hr & Hf & Hd & He & _ & Hp)]; [congruence|].
  rewrite Hc in Hr. injection Hr as <- <-.
  split; [by apply grows_same|].
  destruct (Fs.readdir _ w).1; subst p; try done.
  apply Forall_fmap, Forall_forall. intros dir _.
  by apply traced_t_createDesktopFile.
Qed.

Lemma main_grows E w arg rest :
  argv E = Text arg :: rest → gets_going E w = true →
  grows every_event (after_mkdtemp E w) (main E w).2.
Proof.
  intros Ha Hg. unfold main. rewrite Ha. unfold gets_going in Hg.
  destruct (HOME E) as [home|]; [|done].
  unfold Fs.mkdtemp. fold (startup_tmp E).
  destruct (Fs.existsSync (startup_tmp E) w); [done|].
  destruct (Fs.check_parent (startup_tmp E) w); [done|].
  fold (after_mkdtemp E w).
  match goal with |- context [createAllDesktops E ?C0 _] => set (C := C0) end.
  destruct (createAllDesktops E C (after_mkdtemp E w)) as [o w2] eqn:Hc.
  destruct (createAllDesktops_cases E C (after_mkdtemp E w))
    as [[_ Hx]|(_ & p0 & w0 & Hr & Hf & Hd & He & _)].
  { rewrite Hc in Hx. injection Hx as -> ->. by apply grows_same. }
  rewrite Hc in Hr. injection Hr as -> ->.
  destruct (createAllDesktops_pool E C _ _ _ Hc) as [Hg1 Hp].
  destruct (along_run_pool (grows every_event) (grows_refl _) (grows_trans _)
              (completions E) p0 w0 Hp) as [Hg2 _].
  destruct (run_pool (completions E) p0 w0) as [p' w3]. simpl in *.
  by eapply grows_trans.
Qed.

Lemma main_early E w :
  (∀ arg rest, argv E = Text arg :: rest → gets_going E w = false) →
  (main E w).1 = Some 1%nat ∧ files (main E w).2 = files w
  ∧ dirs (main E w).2 = dirs w ∧ events (main E w).2 = events w.
Proof.
  intros Hno. unfold main.
  destruct (argv E) as [|[arg|] rest]; try done.
  specialize (Hno arg rest eq_refl). unfold gets_going in Hno.
  destruct (HOME E) as [home|]; [|done].
  unfold Fs.mkdtemp. fold (startup_tmp E).
  destruct (Fs.existsSync (startup_tmp E) w); [done|].
  by destruct (Fs.check_parent (startup_tmp E) w).
Qed.

(** X18. A run of the script removes nothing, whatever the order in which
    the operations of the entries complete: every directory that was there
    is still there, and so is every file name. *)
Theorem main_never_removes E w :
  dirs w ⊆ dirs (main E w).2
  ∧ ∀ k, is_Some (files w !! k) → is_Some (files (main E w).2 !! k).
Proof.
  destruct (argv E) as [|[arg|] rest] eqn:Ha;
    try (destruct (main_early E w) as (_ & Hf & Hd & _);
         [by rewrite Ha|by rewrite Hf, Hd]).
  destruct (gets_going E w) eqn:Hg.
  2:{ destruct (main_early E w) as (_ & Hf & Hd & _); [|by rewrite Hf, Hd].
      rewrite Ha. by intros ? ? [= <- <-]. }
  destruct (main_grows E w arg rest Ha Hg) as (_ & _ & _ & Hd & Hf).
  unfold after_mkdtemp in Hd, Hf. simpl in Hd, Hf.
  split; [set_solver|done].
Qed.

(** X19. The temporary directory is never cleaned up: once [mkdtemp] made
    it, it is still there after the run, with whatever status. *)
Theorem main_leaves_temp_directory E w arg rest home :
  argv E = Text arg :: rest → HOME E = Some home →
  Fs.existsSync (startup_tmp E) w = false →
  Fs.check_parent (startup_tmp E) w = None →
  startup_tmp E ∈ dirs (main E w).2
  ∧ EvMkdir (startup_tmp E) ∈ fresh_events w (main E w).2.
Proof.
  intros Ha Hh Hex Hpar.
  assert (Hg : gets_going E w = true).
  { unfold gets_going. by rewrite Hh, Hex, Hpar. }
  destruct (main_grows E w arg rest Ha Hg) as (new & He & _ & Hd & _).
  unfold after_mkdtemp in Hd, He. simpl in Hd, He. split; [set_solver|].
  rewrite (fresh_events_app w _ (new ++ [EvMkdir (startup_tmp E)])).
  - apply elem_of_app. right. apply list_elem_of_here.
  - by rewrite He, <- app_assoc.
Qed.


Lemma run_pool_nil order : ∀ w, run_pool order [] w = ([], w).
Proof. induction order as [|i order IH]; intros w; [done|apply IH]. Qed.

Lemma main_no_directory E w arg rest home :
  argv E = Text arg :: rest → HOME E = Some home →
  Fs.existsSync (startup_tmp E) w = false →
  Fs.check_parent (startup_tmp E) w = None →
  Fs.is_dir (common_of arg) w = false →
  Path.canon (common_of arg) ≠ startup_tmp E →
  main E w
  = if Fs.is_file (common_of arg) w
    then (Some 0%nat,
          print (Err (show_error (FsError "ENOTDIR" (common_of arg))))
                (after_mkdtemp E w))
    else (Some 1%nat, print (Err "Invalid path.") (after_mkdtemp E w)).
Proof.
  intros Ha Hh Hex Hpar Hnd Hne. unfold main. rewrite Ha, Hh.
  unfold Fs.mkdtemp. fold (startup_tmp E). rewrite Hex, Hpar.
  fold (after_mkdtemp E w). fold (common_of arg).
  set (w1 := after_mkdtemp E w).
  assert (Hnd1 : Fs.is_dir (common_of arg) w1 = false).
  { unfold Fs.is_dir in *. subst w1. simpl.
    apply bool_decide_eq_false in Hnd. apply bool_decide_eq_false.
    intros [Heq%elem_of_singleton|Hin]%elem_of_union; [by apply Hne|by apply Hnd]. }
  assert (Hf1 : Fs.is_file (common_of arg) w1 = Fs.is_file (common_of arg) w)
    by done.
  unfold createAllDesktops. cbn [steamCommonPath].
  unfold Fs.existsSync. rewrite Hnd1, Hf1. cbn [orb].
  destruct (Fs.is_file (common_of arg) w) eqn:Hfile; cbn [negb]; [|done].
  unfold try_catch, bind at 1, Fs.readdir.
  rewrite (canon_no_slash _ (common_no_slash arg)), Hnd1, Hf1.
  cbn [fst snd]. unfold bind, log_caught, console_error, ret. cbn [fst snd].
  by rewrite run_pool_nil.
Qed.

(** C8 (as amended). When [<root>/steamapps/common] is not a directory, no
    regular file is created or changed, and the one thing the script does to
    the filesystem is the directory that [mkdtemp] makes at start-up, before
    the root is looked at; it is left behind.  The exit status is 1, unless
    a regular file sits at [<root>/steamapps/common] and the temporary
    directory could be made: then the script ends with status 0. *)
Theorem main_without_common_directory E w arg rest :
  argv E = Text arg :: rest →
  Fs.is_dir (common_of arg) w = false →
  Path.canon (common_of arg) ≠ startup_tmp E →
  (main E w).1
  = (if gets_going E w && Fs.is_file (common_of arg) w
     then Some 0%nat else Some 1%nat)
  ∧ files (main E w).2 = files w
  ∧ fresh_events w (main E w).2
    = (if gets_going E w then [EvMkdir (startup_tmp E)] else [])
  ∧ dirs (main E w).2
    = (if gets_going E w then {[startup_tmp E]} ∪ dirs w else dirs w).
Proof.
  intros Ha Hnd Hne.
  destruct (gets_going E w) eqn:Hgo.
  2:{ destruct (main_early E w) as (-> & Hf & Hd & He).
      - rewrite Ha. by intros ? ? [= <- <-].
      - split_and!; try done. by rewrite (fresh_events_app _ _ []). }
  revert Hgo. unfold gets_going.
  destruct (HOME E) as [home|] eqn:Hh; [|done].
  destruct (Fs.existsSync (startup_tmp E) w) eqn:Hex; [done|].
  destruct (Fs.check_parent (startup_tmp E) w) eqn:Hpar; [done|]. intros _.
  rewrite (main_no_directory E w arg rest home Ha Hh Hex Hpar Hnd Hne).
  cbn [andb].
  destruct (Fs.is_file (common_of arg) w); (split_and!; [done|done| |done]);
    by rewrite (fresh_events_app _ _ [EvMkdir (startup_tmp E)]).
Qed.

(** ** At most one shortcut for each entry, in whatever order *)

Section Owes.

Variable C : config.
Variable d : string.





End Owes.

Section Entry.

Variable E : env.
Variable C : config.







End Entry.

(** ** The entries in turn: an order of completion that gives it *)












(** *** The operations of the script are blind *)

Lemma blind_print l : blind_op (fun w => (Returns tt, print l w)).
Proof. done. Qed.

Lemma blind_ret {A : Type} (a : A) : blind_op (ret a).
Proof. done. Qed.

Lemma blind_throw {A : Type} e : blind_op (throw e : M A).
Proof. done. Qed.








Section Blind.

Variable E : env.
Variable C : config.











End Blind.

(** *** An order in which each task runs to its end in its turn *)






Section InTurn.

Variable E : env.
Variable C : config.



End InTurn.

(** ** The claims on a failed lookup, the batch and the whole run *)

Section FailedLookup.

Variable E : env.
Variable C : config.


Lemma mkdir_files p w : files (Fs.mkdir p w).2 = files w.
Proof.
  unfold Fs.mkdir. destruct (_ || _); [done|].
  by destruct (Fs.check_parent _ w).
Qed.




End FailedLookup.







Lemma main_without_common_directory_witness :
  let w := Demo.boot (filter (fun d => d ≠ "/lib/steamapps/common") Demo.base_dirs) in
  (main Demo.E w).1 = Some 1%nat
  ∧ files (main Demo.E w).2 = files w
  ∧ fresh_events w (main Demo.E w).2 = [EvMkdir "/tmp/sdfg-AbCdEf"].
Proof.
  intros w.
  assert (P0 : argv Demo.E = [Text "/lib/"]) by reflexivity.
  assert (P1 : Fs.is_dir (common_of "/lib/") w = false) by (vm_compute; reflexivity).
  assert (P2 : Path.canon (common_of "/lib/") ≠ startup_tmp Demo.E)
    by (vm_compute; discriminate).
  exact (let H := main_without_common_directory Demo.E w "/lib/" [] P0 P1 P2 in
         conj (proj1 H) (conj (proj1 (proj2 H)) (proj1 (proj2 (proj2 H))))).
Defined.

(** The claim C8 as it stands fails where a regular file sits at
    [steamapps/common]: the test of line 183 passes, [readdir] throws, the
    error is caught and logged, and the script ends with status 0.  In
    every case [mkdtemp] has made the temporary directory by then. *)
Lemma main_without_common_directory_counterexample :
  let w := Cases.w_common_file in
  let w' := Demo.boot (filter (fun d => d ≠ "/lib/steamapps/common") Demo.base_dirs) in
  Fs.is_dir (common_of "/lib/") w = false
  ∧ (main Demo.E w).1 = Some 0%nat
  ∧ console (main Demo.E w).2 = [Err "Error: ENOTDIR: /lib/steamapps/common"]
  ∧ Fs.existsSync (common_of "/lib/") w' = false
  ∧ (main Demo.E w').1 = Some 1%nat
  ∧ (startup_tmp Demo.E ∉ dirs w')
  ∧ startup_tmp Demo.E ∈ dirs (main Demo.E w').2.
Proof. intros w w'. split_and!; by vm_compute. Qed.

Lemma main_leaves_temp_directory_witness :
  startup_tmp Demo.E ∈ dirs (main Demo.E (Demo.boot Demo.base_dirs)).2
  ∧ EvMkdir (startup_tmp Demo.E)
    ∈ fresh_events (Demo.boot Demo.base_dirs)
        (main Demo.E (Demo.boot Demo.base_dirs)).2.
Proof.
  assert (P0 : argv Demo.E = [Text "/lib/"]) by reflexivity.
  assert (P1 : HOME Demo.E = Some "/home/u") by reflexivity.
  assert (P2 : Fs.existsSync (startup_tmp Demo.E) (Demo.boot Demo.base_dirs) = false)
    by (vm_compute; reflexivity).
  assert (P3 : Fs.check_parent (startup_tmp Demo.E) (Demo.boot Demo.base_dirs) = None)
    by (vm_compute; reflexivity).
  exact (main_leaves_temp_directory Demo.E (Demo.boot Demo.base_dirs)
           "/lib/" [] "/home/u" P0 P1 P2 P3).
Defined.

(** The script on the machine of [Demo]: Portal gets its icon and its
    shortcut, and the script ends with status 0. *)
Lemma main_demo :
  let r := main Demo.E (Demo.boot (Demo.launcher_dir :: Demo.base_dirs)) in
  r.1 = Some 0%nat
  ∧ map fst (shortcuts (events r.2)) = [shortcutPath Demo.cfg "Portal"]
  ∧ copy_targets (events r.2)
    = ["/home/u/.local/share/icons/hicolor/64x64/apps/steam_icon_440.png"].
Proof. by vm_compute. Qed.

(** Where the server of the icons never answers, the lookup of Portal is
    followed by a fetch that does not complete: the script does not end. *)
Lemma main_waits :
  (main Cases.E_silent (Demo.boot (Demo.launcher_dir :: Demo.base_dirs))).1 = None.
Proof. by vm_compute. Qed.
